(** * Caso-3-PIH: pump curves, arrangement search and wall thickness

    A shallow embedding of the numeric core of the repository:

    - [Master]    : src/code/master.py       (build_interp with edge
                    extrapolation, the search over N_par = 1..9);
    - [Final]     : src/resultados/final.py  (build_interp over np.interp);
    - [Veremos]   : src/resultados/veremos.py (interpolate, rows_esp);
    - [Estanques] : src/code/estanques.py    (thickness and hoop utilisation).

    Numbers.  The scripts compute with binary64 floats.  Here a finite float
    is a rational [Q] and every operation is exact; the results of a
    division by zero are kept apart from the finite ones: numpy's float64
    division yields inf or nan without raising ([NotFinite]), Python's own
    float division raises ZeroDivisionError.  Equality of computed numbers
    is [Qeq] ([==]). *)

From Stdlib Require Import Strings.String.
From Stdlib Require Import QArith Qround Qminmax ZArith List Bool Lia Lqa.
From Stdlib Require Import Sorting.Sorted Sorting.Permutation.
Import ListNotations.
Open Scope Q_scope.

(** ** Python results *)

Inductive exn : Type :=
| ValueError
| IndexError
| ZeroDivisionError
| RuntimeError
| KeyError.

Inductive result (A : Type) : Type :=
| Ok (a : A)
| Raise (e : exn).
Arguments Ok {A} a.
Arguments Raise {A} e.

(** What evaluating a curve gives: a finite float, a non-finite float (inf
    or nan, from a float64 division by zero), or an exception. *)
Inductive outcome : Type :=
| Value (v : Q)
| NotFinite
| Raised (e : exn).

(** [float(...)] of an outcome known to be finite. *)
Definition to_float (o : outcome) : Q :=
  match o with
  | Value v => v
  | _ => 0
  end.

(** Sequencing of computations that may raise. *)
Definition bind {A B : Type} (r : result A) (k : A -> result B) : result B :=
  match r with
  | Ok a => k a
  | Raise e => Raise e
  end.

Notation "x <- r ;; k" := (bind r (fun x => k))
  (at level 61, r at next level, right associativity).

(** [x / y] on Python floats. *)
Definition pydiv (x y : Q) : result Q :=
  if Qeq_bool y 0 then Raise ZeroDivisionError else Ok (x / y).

Fixpoint mapM {A B : Type} (k : A -> result B) (l : list A)
  : result (list B) :=
  match l with
  | [] => Ok []
  | a :: t => b <- k a ;; bs <- mapM k t ;; Ok (b :: bs)
  end.

(** A dict with string keys, in insertion order. *)
Fixpoint lookup {V : Type} (d : list (string * V)) (k : string) : option V :=
  match d with
  | [] => None
  | (k', v) :: t => if String.eqb k k' then Some v else lookup t k
  end.

(** A dict with integer keys, [d[k]] raising KeyError, and [l[i]] on a
    list, raising IndexError. *)
Fixpoint getitem {V : Type} (d : list (Z * V)) (k : Z) : result V :=
  match d with
  | [] => Raise KeyError
  | (k', v) :: t => if Z.eqb k k' then Ok v else getitem t k
  end.

Definition index {V : Type} (l : list V) (i : nat) : result V :=
  match nth_error l i with
  | Some v => Ok v
  | None => Raise IndexError
  end.

(** [sum(l)]: from 0, left to right. *)
Definition suma (l : list Q) : Q := fold_left Qplus l 0.

(** ** Curve points *)

Definition point : Type := (Q * Q)%type.

Definition Qlt_bool (x y : Q) : bool := negb (Qle_bool y x).

(** [q[-1]] and [q[-2]] of a Python sequence. *)
Fixpoint last_opt {A : Type} (l : list A) : option A :=
  match l with
  | [] => None
  | [a] => Some a
  | _ :: t => last_opt t
  end.

Fixpoint penultimate {A : Type} (l : list A) : option A :=
  match l with
  | [] => None
  | [_] => None
  | [a; _] => Some a
  | _ :: t => penultimate t
  end.

(** [sorted(points, key=lambda x: x[0])]: Python's sort is stable, an
    element goes in front of the first one whose key is not smaller. *)
Fixpoint insert_by_flow (p : point) (l : list point) : list point :=
  match l with
  | [] => [p]
  | h :: t =>
      if Qle_bool (fst p) (fst h) then p :: h :: t
      else h :: insert_by_flow p t
  end.

Fixpoint sorted_by_flow (l : list point) : list point :=
  match l with
  | [] => []
  | p :: t => insert_by_flow p (sorted_by_flow t)
  end.

(** [sorted(pts)]: tuples compare lexicographically. *)
Definition tuple_le (p h : point) : bool :=
  Qlt_bool (fst p) (fst h)
  || (Qeq_bool (fst p) (fst h) && Qle_bool (snd p) (snd h)).

Fixpoint insert_tuple (p : point) (l : list point) : list point :=
  match l with
  | [] => [p]
  | h :: t =>
      if tuple_le p h then p :: h :: t else h :: insert_tuple p t
  end.

Fixpoint sorted_tuples (l : list point) : list point :=
  match l with
  | [] => []
  | p :: t => insert_tuple p (sorted_tuples t)
  end.

(** The flows of a sample list increase strictly from each point to the
    next. *)
Fixpoint increasing_flows (pts : list point) : bool :=
  match pts with
  | a :: ((b :: _) as t) => Qlt_bool (fst a) (fst b) && increasing_flows t
  | _ => true
  end.

(** ** numpy.interp

    [np.interp(x, xp, fp)] for a scalar [x], as numpy documents it for
    increasing [xp]: [fp[0]] left of the samples, [fp[-1]] right of them,
    and between them the line through the two samples that bracket [x].
    [segment_value] is the arithmetic of the bracket [a], [b];
    [interp_walk] looks for the bracket with [a.x <= x < b.x] and returns
    the last value when there is none. *)
Definition segment_value (a b : point) (x : Q) : Q :=
  if Qeq_bool (fst a) x then snd a
  else ((snd b - snd a) / (fst b - fst a)) * (x - fst a) + snd a.

Fixpoint interp_walk (a : point) (rest : list point) (x : Q) : Q :=
  match rest with
  | [] => snd a
  | b :: rest' =>
      if Qlt_bool x (fst b) then segment_value a b x
      else interp_walk b rest' x
  end.

Definition np_interp (x : Q) (pts : list point) : result Q :=
  match pts, last_opt pts with
  | a :: rest, Some z =>
      if Qlt_bool (fst z) x then Ok (snd z)
      else if Qlt_bool x (fst a) then Ok (snd a)
      else Ok (interp_walk a rest x)
  | _, _ => Raise ValueError
  end.

(** ** src/code/master.py *)

Module Master.

(** The closure returned by [build_interp] together with the two bounds. *)
Record interp : Type := mk_interp {
  estimate : Q -> outcome;
  qmin : Q;
  qmax : Q
}.

(** One edge of the curve: [slope = (y_b - y_a) / (q_b - q_a)] and
    [y_o + slope * (qx - q_o)]; the division is numpy's. *)
Definition edge (a b o : point) (qx : Q) : outcome :=
  if Qeq_bool (fst b - fst a) 0 then NotFinite
  else Value (snd o + ((snd b - snd a) / (fst b - fst a)) * (qx - fst o)).

(** The inner function [f] of [build_interp], for a scalar [q_new]; [pts]
    is the sorted sample list that [q] and [y] hold. *)
Definition f (pts : list point) (qx : Q) : outcome :=
  match pts with
  | [] => Raised IndexError
  | p0 :: tl =>
      if Qle_bool qx (fst p0) then
        match tl with
        | p1 :: _ => edge p0 p1 p0 qx
        | [] => Raised IndexError
        end
      else
        match last_opt pts with
        | None => Raised IndexError
        | Some pz =>
            if Qle_bool (fst pz) qx then
              match penultimate pts with
              | Some py => edge py pz pz qx
              | None => Raised IndexError
              end
            else
              match np_interp qx pts with
              | Ok v => Value v
              | Raise e => Raised e
              end
        end
  end.

Definition list_min (a : Q) (l : list Q) : Q := fold_left Qmin l a.
Definition list_max (a : Q) (l : list Q) : Q := fold_left Qmax l a.

(** [build_interp(points)]: the only thing that can raise while the model
    is built is [q.min()] on an empty array. *)
Definition build_interp (points : list point) : result interp :=
  let pts := sorted_by_flow points in
  match map fst pts with
  | [] => Raise ValueError
  | q0 :: qs =>
      Ok {| estimate := f pts;
            qmin := list_min q0 qs;
            qmax := list_max q0 qs |}
  end.

Definition head_points : list point :=
  [(40, 970 - 400); (80, 960 - 400); (160, 890 - 400);
   (200, 840 - 400); (280, 620 - 400)].

Definition eff_points : list point :=
  [(40, 33); (80, 56); (160, 81); (220, 85); (280, 79)].

Definition power_points : list point :=
  [(40, 1200); (80, 1400); (160, 1750); (200, 1950);
   (260, 2150); (280, 3400)].

(** [head_interp], [eff_interp], [power_interp]: the closures of the three
    module-level curves, read through [float(...)]. *)
Definition closure (points : list point) (qx : Q) : Q :=
  to_float (f (sorted_by_flow points) qx).

Definition head_interp : Q -> Q := closure head_points.
Definition eff_interp : Q -> Q := closure eff_points.
Definition power_interp : Q -> Q := closure power_points.

(** *** Section 4 of the script: the search over N_par

    [Q_total_Ls] is 800.0 in the script and [H_total] is the static head
    plus the friction losses (which go through [math.pi]); both are inputs
    here. *)

Definition Q_total_Ls : Q := 800.

Record candidato : Type := mk_candidato {
  N_par : Z;
  Q_bomba_Ls : Q;
  H_bomba_m : Q;
  eta_pct : Q;
  P_bomba_kW : Q;
  N_est : Z;
  H_total_disp_m : Q;
  P_total_kW : Q
}.

(** The body of the loop for one [N_par]. [H_total / Hb] divides two Python
    floats, so a zero [Hb] raises. *)
Definition loop_body (Q_total H_total : Q) (n : Z) : result candidato :=
  let Qb := Q_total / inject_Z n in
  let Hb := head_interp Qb in
  let etab := eff_interp Qb in
  let Pb := power_interp Qb in
  if Qeq_bool Hb 0 then Raise ZeroDivisionError
  else
    let N_st := Qceiling (H_total / Hb) in
    Ok {| N_par := n;
          Q_bomba_Ls := Qb;
          H_bomba_m := Hb;
          eta_pct := etab;
          P_bomba_kW := Pb;
          N_est := N_st;
          H_total_disp_m := inject_Z N_st * Hb;
          P_total_kW := inject_Z n * inject_Z N_st * Pb |}.

(** [for N_par in ...: candidatos.append(...)], an exception ends the script. *)
Fixpoint loop (Q_total H_total : Q) (ns : list Z) (candidatos : list candidato)
  : result (list candidato) :=
  match ns with
  | [] => Ok candidatos
  | n :: ns' =>
      match loop_body Q_total H_total n with
      | Ok c => loop Q_total H_total ns' (candidatos ++ [c])
      | Raise e => Raise e
      end
  end.

(** [range(1, 10)] *)
Definition range_1_10 : list Z := [1; 2; 3; 4; 5; 6; 7; 8; 9]%Z.

Definition candidatos (Q_total H_total : Q) : result (list candidato) :=
  loop Q_total H_total range_1_10 [].

(** The script from the loop to [df_candidatos]. [sort_values] stands for
    [DataFrame.sort_values("P_total_kW")], called with pandas' default
    [kind]. *)
Definition df_candidatos (sort_values : list candidato -> list candidato)
  (Q_total H_total : Q) : result (list candidato) :=
  match candidatos Q_total H_total with
  | Raise e => Raise e
  | Ok [] => Raise RuntimeError
  | Ok (c :: cs) => Ok (sort_values (c :: cs))
  end.

(** [mejor = df_candidatos.iloc[0]] *)
Definition mejor (sort_values : list candidato -> list candidato)
  (Q_total H_total : Q) : result candidato :=
  match df_candidatos sort_values Q_total H_total with
  | Raise e => Raise e
  | Ok [] => Raise IndexError
  | Ok (c :: _) => Ok c
  end.

(** What pandas documents of [sort_values] with the default [kind]
    (quicksort, not a stable sort): the rows come back rearranged in
    ascending order of the column. *)
Definition power_le (a b : candidato) : Prop := P_total_kW a <= P_total_kW b.

Definition sorts_by_power (sort_values : list candidato -> list candidato)
  : Prop :=
  forall l, Permutation l (sort_values l)
            /\ StronglySorted power_le (sort_values l).

(** Two sorts that meet it, by insertion. The first keeps rows of equal
    power in their order (what [kind="stable"] would do), the second puts
    a row behind the rows of equal power already placed. *)
Fixpoint insert_with (goes_before : candidato -> candidato -> bool)
         (c : candidato) (l : list candidato) : list candidato :=
  match l with
  | [] => [c]
  | h :: t =>
      if goes_before c h then c :: h :: t
      else h :: insert_with goes_before c t
  end.

Fixpoint sort_with (goes_before : candidato -> candidato -> bool)
         (l : list candidato) : list candidato :=
  match l with
  | [] => []
  | c :: t => insert_with goes_before c (sort_with goes_before t)
  end.

Definition sort_stable : list candidato -> list candidato :=
  sort_with (fun c h => Qle_bool (P_total_kW c) (P_total_kW h)).

Definition sort_reversing_ties : list candidato -> list candidato :=
  sort_with (fun c h => Qlt_bool (P_total_kW c) (P_total_kW h)).

(** *** [f] on an array

    [f] takes a scalar or an array: [np.atleast_1d(q_new)] is filled
    element by element, and the result is the array when it has more than
    one element, else its element of index 0. *)
Inductive float64 : Type :=
| Finite (v : Q)
| NonFinite.

Inductive returned : Type :=
| Scalar (x : float64)
| Array (xs : list float64)
| Throws (e : exn).

Fixpoint fill (pts : list point) (q_new : list Q) : result (list float64) :=
  match q_new with
  | [] => Ok []
  | qx :: rest =>
      match f pts qx with
      | Value v => ys <- fill pts rest ;; Ok (Finite v :: ys)
      | NotFinite => ys <- fill pts rest ;; Ok (NonFinite :: ys)
      | Raised e => Raise e
      end
  end.

Definition f_array (pts : list point) (q_new : list Q) : returned :=
  match fill pts q_new with
  | Raise e => Throws e
  | Ok [] => Throws IndexError
  | Ok [y] => Scalar y
  | Ok (y :: y' :: ys) => Array (y :: y' :: ys)
  end.

(** *** The common range of the curves

    The four models are built at module level, then
    [q_min_curve = max(qmin_h, qmin_e, qmin_p)] and
    [q_max_curve = min(qmax_h, qmax_e, qmax_p)]. *)
Definition npsh_points : list point :=
  [(80, 4.5); (160, 5.0); (200, 7.2); (240, 11.0); (280, 17.0)].

Definition curve_range : result (Q * Q) :=
  h <- build_interp head_points ;;
  e <- build_interp eff_points ;;
  p <- build_interp power_points ;;
  n <- build_interp npsh_points ;;
  Ok (Qmax (Qmax (qmin h) (qmin e)) (qmin p),
      Qmin (Qmin (qmax h) (qmax e)) (qmax p)).

Definition q_min_curve : result Q := r <- curve_range ;; Ok (fst r).
Definition q_max_curve : result Q := r <- curve_range ;; Ok (snd r).

(** *** Sections 0, 1 and 3 of the script: geometry and friction losses

    [pi] stands for [math.pi]; the Darcy factor, [f] in the script, is
    [f_Darcy] here. *)
Definition Q_total_m3s : Q := Q_total_Ls / 1000.
Definition rho : Q := 1000.
Definition g : Q := 9.81.
Definition D : Q := 0.80.
Definition f_Darcy : Q := 0.02.

Definition tramos : list string :=
  ["2-3"; "3-4"; "4-5"; "5-6"; "6-7"; "7-8"; "8-9"]%string.
Definition L_km : list Q := [23.00; 2.87; 7.84; 8.67; 0.32; 9.90; 5.87].
Definition dZ : list Q := [845; 40; 617; 125; -18; 170; 375].
Definition L_m : list Q := map (fun l => l * 1000) L_km.

Definition alts : list (Z * Q) :=
  [(2%Z, 745); (3%Z, 1590); (4%Z, 1630); (5%Z, 2247);
   (6%Z, 2372); (7%Z, 2354); (8%Z, 2524); (9%Z, 2899)].

Definition A (pi : Q) : Q := pi * D ^ 2 / 4.
Definition V (pi : Q) : Q := Q_total_m3s / A pi.

(** The friction loss of one segment, for a velocity [v]. *)
Definition hf_i (v Li : Q) : Q := f_Darcy * (Li / D) * (v ^ 2 / (2 * g)).

Definition hf_segmentos (pi : Q) : list Q := map (hf_i (V pi)) L_m.
Definition hf_total (pi : Q) : Q := suma (hf_segmentos pi).
Definition H_static : Q := suma dZ.
Definition H_total (pi : Q) : Q := H_static + hf_total pi.

(** *** Section 5 of the script: head per station *)
Definition stations_segments : list (Z * list nat) :=
  [(1%Z, [0; 1]%nat); (2%Z, [2; 3]%nat); (3%Z, [4; 5; 6]%nat)].

Definition station_nodes : list (Z * (Z * Z)) :=
  [(1, (2, 4)); (2, (4, 6)); (3, (6, 9))]%Z.

Record estacion : Type := mk_estacion {
  st : Z;
  L_st : Q;
  dz_st : Q;
  hf_st : Q;
  H_st : Q
}.

(** The body of the loop over the stations; [lengths] and [losses] are the
    lists [L_m] and [hf_segmentos] it indexes. *)
Definition desglose_estacion (lengths losses : list Q) (s : Z)
  : result estacion :=
  seg_idx <- getitem stations_segments s ;;
  Ls <- mapM (index lengths) seg_idx ;;
  hfs <- mapM (index losses) seg_idx ;;
  nodes <- getitem station_nodes s ;;
  z_fin <- getitem alts (snd nodes) ;;
  z_ini <- getitem alts (fst nodes) ;;
  let dz := z_fin - z_ini in
  Ok {| st := s;
        L_st := suma Ls;
        dz_st := dz;
        hf_st := suma hfs;
        H_st := dz + suma hfs |}.

Definition desglose (lengths losses : list Q) : result (list estacion) :=
  mapM (desglose_estacion lengths losses) [1; 2; 3]%Z.

End Master.

(** ** src/resultados/final.py *)

Module Final.

Record interp : Type := mk_interp {
  estimate : Q -> result Q;
  qmin : Q;
  qmax : Q
}.

(** The points are sorted as tuples and unzipped into [x] and [y]; an empty
    list cannot be unpacked. *)
Definition build_interp (pts : list point) : result interp :=
  let xy := sorted_tuples pts in
  match map fst xy with
  | [] => Raise ValueError
  | x0 :: xs =>
      Ok {| estimate := fun q => np_interp q xy;
            qmin := Master.list_min x0 xs;
            qmax := Master.list_max x0 xs |}
  end.

Definition head_pts : list point :=
  [(40, 970); (80, 960); (160, 890); (200, 840); (280, 620)].

Definition eff_pts : list point :=
  [(40, 33); (80, 56); (160, 81); (220, 85); (280, 79)].

Definition power_pts : list point :=
  [(40, 1200); (80, 1400); (160, 1750); (200, 1950);
   (260, 2150); (280, 3400)].

Definition Q_total : Q := 0.8.
Definition rho : Q := 1000.
Definition g : Q := 9.81.
Definition D : Q := 0.80.

Definition TRAMOS : list (string * Q * Q) :=
  [ ("2-3", 23000, 845); ("3-4", 2870, 40); ("4-5", 7840, 617);
    ("5-6", 8670, 125); ("6-7", 320, -18); ("7-8", 9900, 170);
    ("8-9", 5870, 375) ]%string.

(** *** Section 1 of the script: losses per segment

    [fr] stands for the value of [swamee_jain_f(Re, eps, D)], the same at
    every turn of the loop, and [v] for the velocity [V]. *)
Record fila_tramo : Type := mk_fila_tramo {
  Tramo : string;
  L : Q;
  dZ : Q;
  hf : Q
}.

Record perfil : Type := mk_perfil {
  rows : list fila_tramo;
  hf_cum : list Q;
  acc_loss : Q
}.

Definition paso (fr v : Q) (s : perfil) (t : string * Q * Q) : perfil :=
  let '(ID, L, dZ) := t in
  let hf := fr * (L / D) * (v ^ 2 / (2 * g)) in
  let acc := acc_loss s + hf in
  {| rows := rows s ++ [mk_fila_tramo ID L dZ hf];
     hf_cum := hf_cum s ++ [acc];
     acc_loss := acc |}.

Definition calcular_tramos (fr v : Q) (segments : list (string * Q * Q))
  : perfil :=
  fold_left (paso fr v) segments {| rows := []; hf_cum := [0]; acc_loss := 0 |}.

Definition H_static (p : perfil) : Q := suma (map dZ (rows p)).
Definition H_loss (p : perfil) : Q := suma (map hf (rows p)).
Definition H_total (p : perfil) : Q := H_static p + H_loss p.

(** *** Section 2: pumps per station *)
Definition estaciones : list (string * list string * Q * Z) :=
  [ ("Est1 (2→4)", ["2-3"; "3-4"], 930, 7%Z);
    ("Est2 (4→6)", ["4-5"; "5-6"], 840, 4%Z);
    ("Est3 (6→9)", ["6-7"; "7-8"; "8-9"], 656.67, 3%Z) ]%string.

Record fila_est : Type := mk_fila_est {
  Estacion : string;
  Head_m : Q;
  Bombas : Z;
  Q_bomba_Ls : Q;
  Power_kW : Q;
  Eficiencia : Q
}.

Definition df_est (flow : Q) (stations : list (string * list string * Q * Z))
  : result (list fila_est) :=
  Hf <- build_interp head_pts ;;
  Ef <- build_interp eff_pts ;;
  Pf <- build_interp power_pts ;;
  mapM (fun s : string * list string * Q * Z =>
          let '(e, _, H, N) := s in
          qb <- pydiv (flow * 1000) (inject_Z N) ;;
          pw <- estimate Pf qb ;;
          ef <- estimate Ef qb ;;
          Ok (mk_fila_est e H N qb pw ef))
       stations.

(** *** Section 3: thickness per segment

    The loop runs over [zip(TRAMOS, estaciones*3)]. *)
Definition SIGMA_y : Q := 448e6.
Definition F1 : Q := 0.72.
Definition sigma_allow : Q := SIGMA_y * F1.

Record fila_esp : Type := mk_fila_esp {
  Tramo_esp : string;
  Head_diseno : Q;
  P_bar : Q;
  t_req_mm : Q
}.

Definition espesor (ts : (string * Q * Q) * (string * list string * Q * Z))
  : fila_esp :=
  let '((ID, _, _), (_, _, H_grupo, _)) := ts in
  let P_int := rho * g * H_grupo in
  let t_req := (P_int * D) / (2 * sigma_allow) * 1000 in
  {| Tramo_esp := ID;
     Head_diseno := H_grupo;
     P_bar := P_int / 1e5;
     t_req_mm := t_req |}.

Definition tramos_est (segments : list (string * Q * Q))
           (stations : list (string * list string * Q * Z)) : list fila_esp :=
  map espesor (combine segments (stations ++ stations ++ stations)).

End Final.

(** ** src/resultados/veremos.py *)

Module Veremos.

Definition head_points : list point :=
  [(40, 970); (80, 960); (160, 890); (200, 840); (280, 620)].

(** [interpolate(xy, q)]; the list is used as given, it is not sorted. *)
Definition interpolate (xy : list point) (q : Q) : result Q :=
  match xy, last_opt xy with
  | a :: _, Some z =>
      if Qlt_bool q (fst a) then Ok (snd a)
      else if Qlt_bool (fst z) q then Ok (snd z)
      else np_interp q xy
  | _, _ => Raise ValueError
  end.

Definition rho : Q := 1000.
Definition g : Q := 9.81.
Definition Q_total : Q := 0.8.
Definition D : Q := 0.80.

Definition bombas_por_estacion : list Z := [7; 4; 3]%Z.

Record tramo : Type := mk_tramo {
  id : string;
  L : Q;
  dZ : Q;
  grupo : string
}.

Definition TRAMOS : list tramo :=
  [ mk_tramo "2-3" 23000 845 "Est.1";
    mk_tramo "3-4" 2870 40 "Est.1";
    mk_tramo "4-5" 7840 617 "Est.2";
    mk_tramo "5-6" 8670 125 "Est.2";
    mk_tramo "6-7" 320 (-18) "Est.3";
    mk_tramo "7-8" 9900 170 "Est.3";
    mk_tramo "8-9" 5870 375 "Est.3" ].

(** [calcular_head_bomba(Q_Ls, Npar)], its first component. *)
Definition calcular_head_bomba (Q_Ls : Q) (Npar : Z) : result Q :=
  Q_bomba <- pydiv Q_Ls (inject_Z Npar) ;;
  interpolate head_points Q_bomba.

(** [H_estaciones], filled from the three stations and their pump counts. *)
Definition H_estaciones : result (list (string * Q)) :=
  mapM (fun en : string * Z =>
          H_bomba <- calcular_head_bomba 800 (snd en) ;;
          Ok (fst en, H_bomba))
       (combine ["Est.1"; "Est.2"; "Est.3"]%string bombas_por_estacion).

Definition Sy : Q := 448e6.
Definition F1 : Q := 0.72.
Definition sigma_allow : Q := Sy * F1.

Record fila_esp : Type := mk_fila_esp {
  Tramo : string;
  Grupo : string;
  P_bar : Q;
  e_req_mm : Q;
  e_adopt_mm : Q;
  hoop_MPa : Q;
  util_pct : Q
}.

(** The body of the loop that fills [rows_esp]; [H_est] is the dict
    [H_estaciones].  [.index] raises ValueError on a group that is not one
    of the three. *)
Definition fila (H_est : list (string * Q)) (tr : tramo) : result fila_esp :=
  H <- match lookup H_est (grupo tr) with
       | Some H => Ok H
       | None => Raise KeyError
       end ;;
  let P := rho * g * H in
  q <- pydiv (P * D) (2 * sigma_allow) ;;
  let e_req := q * 1000 in
  e_ad <- match lookup [("Est.1", 32); ("Est.2", 50); ("Est.3", 70)]%string
                       (grupo tr) with
          | Some e => Ok e
          | None => Raise ValueError
          end ;;
  e_ad_m <- pydiv e_ad 1000 ;;
  s <- pydiv (P * D) (2 * e_ad_m) ;;
  hoop <- pydiv s 1e6 ;;
  P_b <- pydiv P 1e5 ;;
  u <- pydiv e_req e_ad ;;
  Ok {| Tramo := id tr;
        Grupo := grupo tr;
        P_bar := P_b;
        e_req_mm := e_req;
        e_adopt_mm := e_ad;
        hoop_MPa := hoop;
        util_pct := u * 100 |}.

Definition rows_esp : result (list fila_esp) :=
  H_est <- H_estaciones ;;
  mapM (fila H_est) TRAMOS.

Definition eff_points : list point :=
  [(40, 33); (80, 56); (160, 81); (220, 85); (280, 79)].

Definition power_points : list point :=
  [(40, 1200); (80, 1400); (160, 1750); (200, 1950);
   (260, 2150); (280, 3400)].

(** [calcular_head_bomba(Q_Ls, Npar)] with its three components. *)
Definition calcular_head_bomba_3 (Q_Ls : Q) (Npar : Z)
  : result (Q * Q * Q) :=
  Q_bomba <- pydiv Q_Ls (inject_Z Npar) ;;
  H <- interpolate head_points Q_bomba ;;
  eta <- interpolate eff_points Q_bomba ;;
  Pw <- interpolate power_points Q_bomba ;;
  Ok (H, eta, Pw).

End Veremos.

(** ** src/code/estanques.py *)

Module Estanques.

Definition rho : Q := 1000.
Definition g : Q := 9.81.
Definition D : Q := 0.80.

Definition Sy_MPa : Q := 448.
Definition F1 : Q := 0.72.
Definition sigma_allow : Q := F1 * Sy_MPa * 1e6.

Definition H_est1 : Q := 930.
Definition H_est2 : Q := 840.
Definition H_est3 : Q := 656.667.

Definition H_acum_1 : Q := H_est1.
Definition H_acum_2 : Q := H_est2.
Definition H_acum_3 : Q := H_est3.

Record tramo : Type := mk_tramo {
  id : string;
  grupo : string;
  H_diseno_m : Q
}.

Definition tramos : list tramo :=
  [ mk_tramo "2-3" "Estación 1" H_acum_1;
    mk_tramo "3-4" "Estación 1" H_acum_1;
    mk_tramo "4-5" "Estación 2" H_acum_2;
    mk_tramo "5-6" "Estación 2" H_acum_2;
    mk_tramo "6-7" "Estación 3" H_acum_3;
    mk_tramo "7-8" "Estación 3" H_acum_3;
    mk_tramo "8-9" "Estación 3" H_acum_3 ].

Definition e_adopt_mm : list (string * Q) :=
  [ ("2-3", 32); ("3-4", 32); ("4-5", 50); ("5-6", 50);
    ("6-7", 70); ("7-8", 70); ("8-9", 70) ]%string.

(** The values the loop body computes for one segment; [util_e] and
    [util_hoop] are [None] when their guard fails. *)
Record fila : Type := mk_fila {
  tramo_id : string;
  H_d : Q;
  P_pa : Q;
  P_bar : Q;
  e_req_mm : Q;
  e_ad_mm : Q;
  Sh_adopt_Pa : Q;
  Sh_adopt_MPa : Q;
  util_e : option Q;
  util_hoop : option Q
}.

Definition calcular (tr : tramo) : result fila :=
  let P := rho * g * H_diseno_m tr in
  P_b <- pydiv P 1e5 ;;
  e_req_m <- pydiv (P * D) (2 * sigma_allow) ;;
  let e_req := e_req_m * 1000 in
  let e_ad :=
    match lookup e_adopt_mm (id tr) with
    | Some e => e
    | None => e_req
    end in
  e_ad_m <- pydiv e_ad 1000 ;;
  Sh <- pydiv (P * D) (2 * e_ad_m) ;;
  Sh_MPa <- pydiv Sh 1e6 ;;
  u_e <- (if Qlt_bool 0 e_ad
          then (u <- pydiv e_req e_ad ;; Ok (Some u))
          else Ok None) ;;
  u_h <- (if Qlt_bool 0 sigma_allow
          then (u <- pydiv Sh sigma_allow ;; Ok (Some u))
          else Ok None) ;;
  Ok {| tramo_id := id tr;
        H_d := H_diseno_m tr;
        P_pa := P;
        P_bar := P_b;
        e_req_mm := e_req;
        e_ad_mm := e_ad;
        Sh_adopt_Pa := Sh;
        Sh_adopt_MPa := Sh_MPa;
        util_e := u_e;
        util_hoop := u_h |}.

Definition rows : result (list fila) := mapM calcular tramos.

End Estanques.

(** * Properties *)

(** ** Comparisons *)

Lemma Qlt_bool_iff (x y : Q) : Qlt_bool x y = true <-> x < y.
Proof.
  unfold Qlt_bool. rewrite negb_true_iff. split; intro H.
  - apply Qnot_le_lt. intro Hle. apply Qle_bool_iff in Hle. congruence.
  - destruct (Qle_bool y x) eqn:E; [|reflexivity].
    apply Qle_bool_iff in E. exfalso. exact (Qlt_not_le _ _ H E).
Qed.

Lemma Qlt_bool_false (x y : Q) : Qlt_bool x y = false <-> y <= x.
Proof.
  unfold Qlt_bool. rewrite negb_false_iff. apply Qle_bool_iff.
Qed.

Lemma Qle_bool_false (x y : Q) : Qle_bool x y = false <-> y < x.
Proof.
  split; intro H.
  - apply Qnot_le_lt. intro Hle. apply Qle_bool_iff in Hle. congruence.
  - destruct (Qle_bool x y) eqn:E; [|reflexivity].
    apply Qle_bool_iff in E. exfalso. exact (Qlt_not_le _ _ H E).
Qed.

Lemma Qeq_bool_false_lt (x y : Q) : x < y -> Qeq_bool (y - x) 0 = false.
Proof.
  intro H. destruct (Qeq_bool (y - x) 0) eqn:E; [|reflexivity].
  apply Qeq_bool_eq in E. lra.
Qed.

(** ** Curves with strictly increasing flows *)

Lemma increasing_cons (a b : point) (t : list point) :
  increasing_flows (a :: b :: t) = true <->
  fst a < fst b /\ increasing_flows (b :: t) = true.
Proof.
  cbn [increasing_flows]. rewrite andb_true_iff, Qlt_bool_iff. tauto.
Qed.

Lemma increasing_tail (a : point) (t : list point) :
  increasing_flows (a :: t) = true -> increasing_flows t = true.
Proof.
  destruct t as [|b t]; [reflexivity|]. intro H.
  apply increasing_cons in H. tauto.
Qed.

Lemma increasing_head_lt (a : point) (t : list point) :
  increasing_flows (a :: t) = true -> Forall (fun p => fst a < fst p) t.
Proof.
  revert a. induction t as [|b t IH]; intros a H; constructor.
  - apply increasing_cons in H. tauto.
  - apply increasing_cons in H. destruct H as [Hab Hbt].
    specialize (IH b Hbt).
    eapply Forall_impl; [|exact IH]. cbn. intros p Hp. lra.
Qed.

Lemma increasing_app_r (l1 l2 : list point) :
  increasing_flows (l1 ++ l2) = true -> increasing_flows l2 = true.
Proof.
  induction l1 as [|a l1 IH]; cbn [app]; intro H; [exact H|].
  apply IH. exact (increasing_tail _ _ H).
Qed.

(** A list already in increasing order of flow is left as it is by both
    sorts. *)
Lemma sorted_by_flow_increasing (pts : list point) :
  increasing_flows pts = true -> sorted_by_flow pts = pts.
Proof.
  induction pts as [|a t IH]; intro H; [reflexivity|].
  cbn [sorted_by_flow]. rewrite (IH (increasing_tail _ _ H)).
  destruct t as [|b t]; [reflexivity|].
  apply increasing_cons in H. destruct H as [Hab _].
  cbn [insert_by_flow].
  assert (E : Qle_bool (fst a) (fst b) = true) by (apply Qle_bool_iff; lra).
  rewrite E. reflexivity.
Qed.

Lemma sorted_tuples_increasing (pts : list point) :
  increasing_flows pts = true -> sorted_tuples pts = pts.
Proof.
  induction pts as [|a t IH]; intro H; [reflexivity|].
  cbn [sorted_tuples]. rewrite (IH (increasing_tail _ _ H)).
  destruct t as [|b t]; [reflexivity|].
  apply increasing_cons in H. destruct H as [Hab _].
  cbn [insert_tuple]. unfold tuple_le.
  apply Qlt_bool_iff in Hab. rewrite Hab. reflexivity.
Qed.

(** When the flows are pairwise distinct the two sorts give the same list. *)
Lemma insert_by_flow_Forall (P : point -> Prop) (p : point) (l : list point) :
  Forall P (insert_by_flow p l) <-> P p /\ Forall P l.
Proof.
  induction l as [|h t IH]; cbn [insert_by_flow].
  - split; [intro H; inversion H; now split|intros [H _]; now constructor].
  - destruct (Qle_bool (fst p) (fst h)).
    + split; [intro H; inversion H; now split|intros [H1 H2]; now constructor].
    + split.
      * intro H. inversion H as [|x y Hh Ht]; subst.
        apply IH in Ht. destruct Ht as [Hp Ht]. split; [exact Hp|now constructor].
      * intros [Hp H]. inversion H as [|x y Hh Ht]; subst.
        constructor; [exact Hh|]. apply IH. now split.
Qed.

Lemma increasing_cons_iff (a : point) (l : list point) :
  increasing_flows (a :: l) = true <->
  Forall (fun x => fst a < fst x) l /\ increasing_flows l = true.
Proof.
  split.
  - intro H. split; [now apply increasing_head_lt|exact (increasing_tail _ _ H)].
  - intros [Hall Hinc]. destruct l as [|b t]; [reflexivity|].
    apply increasing_cons. inversion Hall; subst. now split.
Qed.

Lemma increasing_insert_inv (p : point) (l : list point) :
  increasing_flows (insert_by_flow p l) = true -> increasing_flows l = true.
Proof.
  induction l as [|h t IH]; cbn [insert_by_flow]; [reflexivity|].
  destruct (Qle_bool (fst p) (fst h)); [apply increasing_tail|].
  intro H. apply increasing_cons_iff in H. destruct H as [Hall Hinc].
  apply increasing_cons_iff. split; [|now apply IH].
  apply insert_by_flow_Forall in Hall. tauto.
Qed.

Lemma insert_tuple_distinct (p : point) (l : list point) :
  increasing_flows (insert_by_flow p l) = true ->
  insert_tuple p l = insert_by_flow p l.
Proof.
  induction l as [|h t IH]; cbn [insert_by_flow insert_tuple];
    [reflexivity|]. unfold tuple_le.
  destruct (Qle_bool (fst p) (fst h)) eqn:E; intro H.
  - apply increasing_cons in H. destruct H as [Hph _].
    apply Qlt_bool_iff in Hph. now rewrite Hph.
  - apply Qle_bool_false in E.
    assert (E1 : Qlt_bool (fst p) (fst h) = false)
      by (apply Qlt_bool_false; lra).
    assert (E2 : Qeq_bool (fst p) (fst h) = false).
    { destruct (Qeq_bool (fst p) (fst h)) eqn:E2; [|reflexivity].
      apply Qeq_bool_eq in E2. lra. }
    rewrite E1, E2. cbn. f_equal. apply IH. exact (increasing_tail _ _ H).
Qed.

Lemma sorted_tuples_distinct (l : list point) :
  increasing_flows (sorted_by_flow l) = true ->
  sorted_tuples l = sorted_by_flow l.
Proof.
  induction l as [|p t IH]; [reflexivity|].
  cbn [sorted_by_flow sorted_tuples]. intro H.
  rewrite (IH (increasing_insert_inv _ _ H)).
  now apply insert_tuple_distinct.
Qed.

(** ** The last two samples *)

Lemma last_opt_app (A : Type) (l : list A) (z : A) :
  last_opt (l ++ [z]) = Some z.
Proof.
  induction l as [|a l IH]; [reflexivity|].
  cbn [app last_opt]. destruct (l ++ [z]) eqn:E.
  - destruct l; discriminate.
  - exact IH.
Qed.

Lemma penultimate_app (A : Type) (l : list A) (y z : A) :
  penultimate (l ++ [y; z]) = Some y.
Proof.
  induction l as [|a l IH]; [reflexivity|].
  cbn [app penultimate]. destruct (l ++ [y; z]) as [|b [|c r]] eqn:E.
  - destruct l; discriminate.
  - destruct l as [|? [|? ?]]; discriminate.
  - exact IH.
Qed.

Lemma last_opt_cons (A : Type) (a b : A) (l : list A) :
  last_opt (a :: b :: l) = last_opt (b :: l).
Proof. reflexivity. Qed.

Lemma last_opt_some (A : Type) (a : A) (l : list A) :
  exists z, last_opt (a :: l) = Some z.
Proof.
  revert a. induction l as [|b l IH]; intro a.
  - exists a. reflexivity.
  - rewrite last_opt_cons. apply IH.
Qed.

Lemma last_opt_In (A : Type) (l : list A) (z : A) :
  last_opt l = Some z -> In z l.
Proof.
  induction l as [|a l IH]; [discriminate|].
  destruct l as [|b l].
  - cbn. intro H. injection H as ->. now left.
  - rewrite last_opt_cons. intro H. right. exact (IH H).
Qed.

(** A list with a last element ends in it. *)
Lemma last_opt_split (A : Type) (l : list A) (z : A) :
  last_opt l = Some z -> exists front, l = front ++ [z].
Proof.
  induction l as [|a l IH]; [discriminate|].
  destruct l as [|b l].
  - cbn. intro H. injection H as ->. exists []. reflexivity.
  - rewrite last_opt_cons. intro H. destruct (IH H) as [front E].
    exists (a :: front). cbn [app]. now rewrite <- E.
Qed.

Lemma increasing_first_le_last (a z : point) (l : list point) :
  increasing_flows (a :: l) = true -> last_opt (a :: l) = Some z ->
  fst a <= fst z.
Proof.
  intros Hinc Hlast. apply last_opt_In in Hlast.
  destruct Hlast as [<- | Hin]; [lra|].
  pose proof (increasing_head_lt _ _ Hinc) as Hall.
  rewrite Forall_forall in Hall. specialize (Hall z Hin). cbn in Hall. lra.
Qed.

Lemma increasing_first_lt_last (a b z : point) (l : list point) :
  increasing_flows (a :: b :: l) = true -> last_opt (a :: b :: l) = Some z ->
  fst a < fst z.
Proof.
  intros Hinc Hlast. rewrite last_opt_cons in Hlast.
  apply increasing_cons in Hinc. destruct Hinc as [Hab Hinc].
  pose proof (increasing_first_le_last _ _ _ Hinc Hlast). lra.
Qed.

(** ** np.interp on a curve with increasing flows *)

(** Inside the bracket [a], [b] the walk stops at that bracket. *)
Lemma walk_segment (front : list point) :
  forall (a0 : point) (rest : list point) (a b : point) (back : list point)
         (x : Q),
    increasing_flows (a0 :: rest) = true ->
    a0 :: rest = front ++ a :: b :: back ->
    fst a <= x -> x < fst b ->
    interp_walk a0 rest x = segment_value a b x.
Proof.
  induction front as [|c front IH]; intros a0 rest a b back x Hinc E Hax Hxb.
  - cbn [app] in E. injection E as -> ->.
    cbn [interp_walk]. apply Qlt_bool_iff in Hxb. now rewrite Hxb.
  - cbn [app] in E. injection E as -> ->.
    destruct (front ++ a :: b :: back) as [|d rest'] eqn:E.
    { destruct front; discriminate. }
    assert (Hd : fst d <= x).
    { pose proof (increasing_tail _ _ Hinc) as Hinc'.
      destruct front as [|c' front'].
      - cbn [app] in E. injection E as E1 _. subst d. exact Hax.
      - cbn [app] in E. injection E as E1 E2. subst d rest'.
        pose proof (increasing_head_lt _ _ Hinc') as Hall.
        rewrite Forall_forall in Hall.
        assert (Hin : In a (front' ++ a :: b :: back))
          by (apply in_or_app; right; now left).
        specialize (Hall a Hin). cbn in Hall. lra. }
    cbn [interp_walk]. apply Qlt_bool_false in Hd. rewrite Hd.
    apply (IH d rest' a b back x);
      [exact (increasing_tail _ _ Hinc)|now symmetry|exact Hax|exact Hxb].
Qed.

(** At or beyond the last sample the walk returns the last value. *)
Lemma walk_last (rest : list point) :
  forall (a0 z : point) (x : Q),
    increasing_flows (a0 :: rest) = true ->
    last_opt (a0 :: rest) = Some z ->
    fst z <= x ->
    interp_walk a0 rest x = snd z.
Proof.
  induction rest as [|b rest IH]; intros a0 z x Hinc Hlast Hzx.
  - cbn in Hlast. injection Hlast as ->. reflexivity.
  - rewrite last_opt_cons in Hlast.
    pose proof (increasing_tail _ _ Hinc) as Hinc'.
    pose proof (increasing_first_le_last _ _ _ Hinc' Hlast) as Hbz.
    assert (Hb : Qlt_bool x (fst b) = false) by (apply Qlt_bool_false; lra).
    cbn [interp_walk]. rewrite Hb. now apply IH.
Qed.

Lemma segment_value_start (a b : point) : segment_value a b (fst a) = snd a.
Proof. unfold segment_value. now rewrite Qeq_bool_refl. Qed.

(** The arithmetic of a bracket, as one formula. *)
Lemma segment_value_line (a b : point) (x : Q) :
  fst a < fst b ->
  segment_value a b x ==
  snd a + ((snd b - snd a) / (fst b - fst a)) * (x - fst a).
Proof.
  intro Hab. unfold segment_value.
  destruct (Qeq_bool (fst a) x) eqn:E.
  - apply Qeq_bool_eq in E. rewrite <- E. field. lra.
  - ring.
Qed.

(** At the flow of a sample the walk returns the value of that sample. *)
Lemma walk_sample (a0 : point) (rest : list point) (p : point) :
  increasing_flows (a0 :: rest) = true ->
  In p (a0 :: rest) ->
  interp_walk a0 rest (fst p) = snd p.
Proof.
  intros Hinc Hin. apply in_split in Hin. destruct Hin as [front [back E]].
  destruct back as [|b back].
  - apply walk_last; [exact Hinc| |lra].
    rewrite E. apply last_opt_app.
  - rewrite (walk_segment front a0 rest p b back (fst p) Hinc E).
    + apply segment_value_start.
    + lra.
    + rewrite E in Hinc. apply increasing_app_r in Hinc.
      apply increasing_cons in Hinc. tauto.
Qed.

(** Between the first and the last sample [np.interp] is the walk. *)
Lemma np_interp_inside (a0 z : point) (rest : list point) (x : Q) :
  last_opt (a0 :: rest) = Some z ->
  fst a0 <= x -> x <= fst z ->
  np_interp x (a0 :: rest) = Ok (interp_walk a0 rest x).
Proof.
  intros Hlast H0 Hz. unfold np_interp. rewrite Hlast.
  apply Qlt_bool_false in H0. apply Qlt_bool_false in Hz.
  now rewrite Hz, H0.
Qed.

(** Within a bracket, whichever end [x] touches, the walk is on the line
    through the bracket's two samples. *)
Lemma walk_bracket (front : list point) (a0 : point) (rest : list point)
      (a b : point) (back : list point) (x : Q) :
  increasing_flows (a0 :: rest) = true ->
  a0 :: rest = front ++ a :: b :: back ->
  fst a <= x -> x <= fst b ->
  interp_walk a0 rest x ==
  snd a + ((snd b - snd a) / (fst b - fst a)) * (x - fst a).
Proof.
  intros Hinc E Hax Hxb.
  assert (Hab : fst a < fst b).
  { rewrite E in Hinc. apply increasing_app_r in Hinc.
    apply increasing_cons in Hinc. tauto. }
  destruct (Qlt_le_dec x (fst b)) as [Hlt | Hge].
  - rewrite (walk_segment front a0 rest a b back x Hinc E Hax Hlt).
    now apply segment_value_line.
  - assert (Hx : x == fst b) by lra.
    assert (Hw : interp_walk a0 rest x = snd b).
    { destruct back as [|c back].
      - apply walk_last; [exact Hinc| |lra].
        rewrite E. change (a :: [b]) with ([a] ++ [b]).
        rewrite app_assoc. apply last_opt_app.
      - assert (Hbc : fst b < fst c).
        { rewrite E in Hinc. apply increasing_app_r in Hinc.
          apply increasing_tail in Hinc.
          apply increasing_cons in Hinc. tauto. }
        assert (E' : a0 :: rest = (front ++ [a]) ++ b :: c :: back)
          by (now rewrite <- app_assoc).
        rewrite (walk_segment _ a0 rest b c back x Hinc E'); [|lra|lra].
        unfold segment_value.
        assert (Hq : Qeq_bool (fst b) x = true)
          by (apply Qeq_eq_bool; now symmetry).
        now rewrite Hq. }
    rewrite Hw, Hx. field. lra.
Qed.

(** ** Arithmetic of one bracket *)

Lemma line_param (xa xb ya yb q : Q) :
  xa < xb ->
  exists t,
    ya + ((yb - ya) / (xb - xa)) * (q - xa) == ya + (yb - ya) * t
    /\ t * (xb - xa) == q - xa.
Proof.
  intro H. exists ((q - xa) / (xb - xa)). split; field; lra.
Qed.

Lemma param_bounds (xa xb q t : Q) :
  xa < xb -> xa <= q -> q <= xb -> t * (xb - xa) == q - xa -> 0 <= t <= 1.
Proof.
  intros Hab Ha Hb Ht. split.
  - destruct (Qlt_le_dec t 0); [|assumption]. exfalso. nra.
  - destruct (Qlt_le_dec 1 t); [|assumption]. exfalso. nra.
Qed.

Lemma param_mono (xa xb q1 q2 t1 t2 : Q) :
  xa < xb -> q1 <= q2 ->
  t1 * (xb - xa) == q1 - xa -> t2 * (xb - xa) == q2 - xa -> t1 <= t2.
Proof.
  intros Hab Hq H1 H2.
  destruct (Qlt_le_dec t2 t1); [|assumption]. exfalso. nra.
Qed.

Lemma chord_between (ya yb t : Q) :
  0 <= t <= 1 -> Qmin ya yb <= ya + (yb - ya) * t <= Qmax ya yb.
Proof.
  intros [H0 H1]. destruct (Qlt_le_dec ya yb).
  - rewrite Q.min_l, Q.max_r by lra. split; nra.
  - rewrite Q.min_r, Q.max_l by lra. split; nra.
Qed.

Lemma chord_mono (ya yb t1 t2 : Q) :
  t1 <= t2 ->
  (ya <= yb -> ya + (yb - ya) * t1 <= ya + (yb - ya) * t2)
  /\ (yb <= ya -> ya + (yb - ya) * t2 <= ya + (yb - ya) * t1).
Proof. intros; split; intros; nra. Qed.

(** ** The bounds [q.min()], [q.max()] of an increasing curve *)

Lemma Qmin_left (a x : Q) : a <= x -> Qmin a x = a.
Proof.
  intro H. unfold Qmin, GenericMinMax.gmin.
  destruct (a ?= x) eqn:E; try reflexivity. apply Qgt_alt in E. lra.
Qed.

Lemma Qmax_right (a x : Q) : a < x -> Qmax a x = x.
Proof.
  intro H. unfold Qmax, GenericMinMax.gmax.
  destruct (a ?= x) eqn:E; try reflexivity.
  - apply Qeq_alt in E. lra.
  - apply Qgt_alt in E. lra.
Qed.

Lemma list_min_first (a : point) (l : list point) :
  increasing_flows (a :: l) = true ->
  Master.list_min (fst a) (map fst l) = fst a.
Proof.
  intro Hinc. apply increasing_head_lt in Hinc. unfold Master.list_min.
  induction Hinc as [|b l Hb _ IH]; [reflexivity|].
  cbn [map fold_left]. rewrite Qmin_left by lra. exact IH.
Qed.

Lemma list_max_last (l : list point) :
  forall a z, increasing_flows (a :: l) = true ->
              last_opt (a :: l) = Some z ->
              Master.list_max (fst a) (map fst l) = fst z.
Proof.
  unfold Master.list_max.
  induction l as [|b l IH]; intros a z Hinc Hlast.
  - cbn in Hlast. injection Hlast as ->. reflexivity.
  - rewrite last_opt_cons in Hlast. apply increasing_cons in Hinc.
    destruct Hinc as [Hab Hinc].
    cbn [map fold_left]. rewrite Qmax_right by exact Hab. now apply IH.
Qed.

(** ** What the three constructions return on an increasing curve *)

Lemma master_sorted_model (points : list point) (m : Master.interp) :
  increasing_flows (sorted_by_flow points) = true ->
  Master.build_interp points = Ok m ->
  exists a0 rest z,
    sorted_by_flow points = a0 :: rest /\ last_opt (a0 :: rest) = Some z
    /\ Master.estimate m = Master.f (a0 :: rest)
    /\ Master.qmin m = fst a0 /\ Master.qmax m = fst z.
Proof.
  intros Hinc Hb. unfold Master.build_interp in Hb.
  destruct (sorted_by_flow points) as [|a0 rest]; [discriminate|].
  destruct (last_opt_some _ a0 rest) as [z Hz].
  exists a0, rest, z. cbn [map] in Hb. injection Hb as <-. cbn.
  repeat split; try assumption.
  - now apply list_min_first.
  - now apply list_max_last.
Qed.

Lemma final_sorted_model (points : list point) (m : Final.interp) :
  increasing_flows (sorted_by_flow points) = true ->
  Final.build_interp points = Ok m ->
  exists a0 rest z,
    sorted_by_flow points = a0 :: rest /\ last_opt (a0 :: rest) = Some z
    /\ Final.estimate m = (fun q => np_interp q (a0 :: rest))
    /\ Final.qmin m = fst a0 /\ Final.qmax m = fst z.
Proof.
  intros Hinc Hb. unfold Final.build_interp in Hb.
  rewrite (sorted_tuples_distinct _ Hinc) in Hb.
  destruct (sorted_by_flow points) as [|a0 rest]; [discriminate|].
  destruct (last_opt_some _ a0 rest) as [z Hz].
  exists a0, rest, z. cbn [map] in Hb. injection Hb as <-. cbn.
  repeat split; try assumption.
  - now apply list_min_first.
  - now apply list_max_last.
Qed.

Lemma master_model (pts : list point) (m : Master.interp) :
  increasing_flows pts = true -> Master.build_interp pts = Ok m ->
  exists a0 rest z,
    pts = a0 :: rest /\ last_opt pts = Some z
    /\ Master.estimate m = Master.f pts
    /\ Master.qmin m = fst a0 /\ Master.qmax m = fst z.
Proof.
  intros Hinc Hb.
  pose proof (sorted_by_flow_increasing _ Hinc) as Es.
  destruct (master_sorted_model pts m) as [a0 [rest [z [E H]]]];
    [now rewrite Es|exact Hb|].
  rewrite Es in E. subst pts. now exists a0, rest, z.
Qed.

(** Every non-empty sample list gives a model. *)
Lemma insert_by_flow_cons (p : point) (l : list point) :
  exists h t, insert_by_flow p l = h :: t.
Proof.
  destruct l as [|h t]; cbn; [now eauto|].
  destruct (Qle_bool (fst p) (fst h)); eauto.
Qed.

Lemma master_build_total (p : point) (l : list point) :
  exists m, Master.build_interp (p :: l) = Ok m
            /\ Master.estimate m = Master.f (sorted_by_flow (p :: l)).
Proof.
  unfold Master.build_interp.
  destruct (insert_by_flow_cons p (sorted_by_flow l)) as [h [t E]].
  cbn [sorted_by_flow]. rewrite E. cbn [map]. eexists. split; reflexivity.
Qed.

(** Strictly inside the range, [f] is [np.interp], which is the walk. *)
Lemma f_inside (a0 z : point) (rest : list point) (q : Q) :
  last_opt (a0 :: rest) = Some z ->
  fst a0 < q -> q < fst z ->
  Master.f (a0 :: rest) q = Value (interp_walk a0 rest q).
Proof.
  intros Hlast H0 Hz. unfold Master.f. rewrite Hlast.
  assert (E0 : Qle_bool q (fst a0) = false) by (now apply Qle_bool_false).
  assert (Ez : Qle_bool (fst z) q = false) by (now apply Qle_bool_false).
  rewrite E0, Ez.
  rewrite (np_interp_inside a0 z rest q Hlast); [reflexivity|lra|lra].
Qed.

Lemma last_opt_app_cons (A : Type) (front : list A) (p : A) (back : list A) :
  last_opt (front ++ p :: back) = last_opt (p :: back).
Proof.
  induction front as [|c front IH]; [reflexivity|].
  cbn [app]. destruct (front ++ p :: back) eqn:E.
  - destruct front; discriminate.
  - rewrite last_opt_cons. exact IH.
Qed.

Lemma increasing_in_range (a0 z p : point) (rest : list point) :
  increasing_flows (a0 :: rest) = true ->
  last_opt (a0 :: rest) = Some z ->
  In p (a0 :: rest) ->
  fst a0 <= fst p <= fst z.
Proof.
  intros Hinc Hlast Hin. split.
  - destruct Hin as [<- | Hin]; [lra|].
    pose proof (increasing_head_lt _ _ Hinc) as Hall.
    rewrite Forall_forall in Hall. specialize (Hall p Hin). cbn in Hall. lra.
  - apply in_split in Hin. destruct Hin as [front [back E]].
    rewrite E in Hinc, Hlast. apply increasing_app_r in Hinc.
    rewrite last_opt_app_cons in Hlast.
    exact (increasing_first_le_last _ _ _ Hinc Hlast).
Qed.

(** ** The two edges of [f] *)

Lemma f_low (p0 p1 : point) (rest : list point) (q : Q) :
  increasing_flows (p0 :: p1 :: rest) = true ->
  q <= fst p0 ->
  Master.f (p0 :: p1 :: rest) q =
  Value (snd p0 + ((snd p1 - snd p0) / (fst p1 - fst p0)) * (q - fst p0)).
Proof.
  intros Hinc Hq. apply increasing_cons in Hinc. destruct Hinc as [H01 _].
  unfold Master.f, Master.edge.
  apply Qle_bool_iff in Hq. rewrite Hq.
  now rewrite (Qeq_bool_false_lt _ _ H01).
Qed.

Lemma f_high (front : list point) (py pz : point) (q : Q) :
  increasing_flows (front ++ [py; pz]) = true ->
  fst pz <= q ->
  Master.f (front ++ [py; pz]) q =
  Value (snd pz + ((snd pz - snd py) / (fst pz - fst py)) * (q - fst pz)).
Proof.
  intros Hinc Hq.
  assert (Hyz : fst py < fst pz).
  { apply increasing_app_r in Hinc. apply increasing_cons in Hinc. tauto. }
  assert (Hlast : last_opt (front ++ [py; pz]) = Some pz).
  { change [py; pz] with ([py] ++ [pz]). rewrite app_assoc.
    apply last_opt_app. }
  pose proof (penultimate_app _ front py pz) as Hpen.
  destruct (front ++ [py; pz]) as [|a0 rest] eqn:E; [discriminate|].
  assert (H0 : fst a0 <= fst py).
  { assert (Hin : In py (a0 :: rest))
      by (rewrite <- E; apply in_or_app; right; now left).
    apply (increasing_in_range a0 pz py rest Hinc Hlast Hin). }
  unfold Master.f. rewrite Hlast, Hpen. unfold Master.edge.
  assert (E0 : Qle_bool q (fst a0) = false) by (apply Qle_bool_false; lra).
  apply Qle_bool_iff in Hq.
  now rewrite E0, Hq, (Qeq_bool_false_lt _ _ Hyz).
Qed.

(** On a curve with two samples or more and increasing flows every
    estimate is a finite value. *)
Lemma f_value (pts : list point) (q : Q) :
  (2 <= length pts)%nat -> increasing_flows pts = true ->
  exists v, Master.f pts q = Value v.
Proof.
  intros Hlen Hinc.
  destruct pts as [|p0 [|p1 rest]]; try (cbn in Hlen; lia).
  destruct (Qlt_le_dec (fst p0) q) as [H0 | H0];
    [|eexists; now apply f_low].
  destruct (last_opt_some _ p0 (p1 :: rest)) as [z Hz].
  destruct (Qlt_le_dec q (fst z)) as [H1 | H1];
    [eexists; now apply (f_inside p0 z)|].
  destruct (last_opt_split _ _ _ Hz) as [front E].
  destruct (exists_last (l := front)) as [front' [y Ey]].
  { intros ->. discriminate E. }
  rewrite Ey, <- app_assoc in E. cbn [app] in E.
  rewrite E in *. eexists. now apply f_high.
Qed.

(** The three curves of master.py are such curves: [float(...)] of their
    closures is always the finite value of [f]. *)
Lemma module_closures_finite (q : Q) :
  Master.f (sorted_by_flow Master.head_points) q
  = Value (Master.head_interp q)
  /\ Master.f (sorted_by_flow Master.eff_points) q
     = Value (Master.eff_interp q)
  /\ Master.f (sorted_by_flow Master.power_points) q
     = Value (Master.power_interp q).
Proof.
  unfold Master.head_interp, Master.eff_interp, Master.power_interp,
    Master.closure.
  repeat split;
    match goal with
    | |- Master.f (sorted_by_flow ?pts) _ = _ =>
        rewrite (sorted_by_flow_increasing pts eq_refl);
        destruct (f_value pts q) as [v Hv];
        [cbn; lia|reflexivity|now rewrite Hv]
    end.
Qed.

(** ** Claims on the curve model *)


(** C6. Round trip at the samples: for a model built from at least two
    samples with strictly increasing flows, the estimate at the flow of
    each sample is the value of that sample, with the extrapolating
    [build_interp] of master.py and with the one of final.py. *)
Theorem estimate_at_samples (pts : list point) (p : point) :
  (2 <= length pts)%nat -> increasing_flows pts = true -> In p pts ->
  (exists m v,
      Master.build_interp pts = Ok m
      /\ Master.estimate m (fst p) = Value v /\ v == snd p)
  /\ (exists m,
         Final.build_interp pts = Ok m
         /\ Final.estimate m (fst p) = Ok (snd p)).
Proof.
  intros Hlen Hinc Hin.
  destruct pts as [|a0 rest]; [cbn in Hlen; lia|].
  destruct (last_opt_some _ a0 rest) as [z Hlast].
  pose proof (increasing_in_range a0 z p rest Hinc Hlast Hin) as [Hlo Hhi].
  split.
  - destruct (master_build_total a0 rest) as [m [Hb _]].
    exists m.
    destruct (master_model _ m Hinc Hb) as [a [r [z' [_ [_ [Hf _]]]]]].
    rewrite Hf. clear Hf a r z'.
    apply in_split in Hin. destruct Hin as [front [back E]].
    destruct front as [|c front].
    + (* the first sample *)
      cbn [app] in E. injection E as -> ->.
      destruct back as [|p1 back]; [cbn in Hlen; lia|].
      eexists. split; [exact Hb|]. split.
      * apply f_low; [exact Hinc|lra].
      * field. apply increasing_cons in Hinc. lra.
    + destruct back as [|b back].
      * (* the last sample *)
        destruct (exists_last (l := c :: front)) as [front' [py Efront]];
          [discriminate|].
        rewrite Efront, <- app_assoc in E. cbn [app] in E.
        rewrite E in *.
        eexists. split; [exact Hb|]. split.
        -- apply f_high; [exact Hinc|lra].
        -- field. apply increasing_app_r in Hinc.
           apply increasing_cons in Hinc. lra.
      * (* a sample in between *)
        exists (snd p). split; [exact Hb|]. split; [|reflexivity].
        assert (Hp0 : fst a0 < fst p).
        { cbn [app] in E. injection E as <- ->.
          pose proof (increasing_head_lt _ _ Hinc) as Hall.
          rewrite Forall_forall in Hall.
          apply (Hall p). apply in_or_app. right. now left. }
        assert (Hpz : fst p < fst z).
        { rewrite E in Hinc, Hlast. apply increasing_app_r in Hinc.
          rewrite last_opt_app_cons in Hlast.
          exact (increasing_first_lt_last _ _ _ _ Hinc Hlast). }
        rewrite (f_inside a0 z rest (fst p) Hlast Hp0 Hpz).
        f_equal. apply walk_sample; [exact Hinc|].
        rewrite E. apply in_or_app. right. now left.
  - unfold Final.build_interp.
    rewrite (sorted_tuples_increasing _ Hinc). cbn [map].
    eexists. split; [reflexivity|]. cbn [Final.estimate].
    rewrite (np_interp_inside a0 z rest (fst p) Hlast Hlo Hhi).
    f_equal. now apply walk_sample.
Qed.

Lemma estimate_at_samples_witness :
  (exists m v,
      Master.build_interp Veremos.head_points = Ok m
      /\ Master.estimate m 160 = Value v /\ v == 890)
  /\ (exists m,
         Final.build_interp Veremos.head_points = Ok m
         /\ Final.estimate m 160 = Ok 890).
Proof.
  apply (estimate_at_samples Veremos.head_points (160, 890)).
  - cbn. lia.
  - reflexivity.
  - cbn. right. right. left. reflexivity.
Defined.

(** Strictly inside the range both constructions evaluate the walk over
    the sorted samples, which lies on the line of the bracket that holds
    the query. *)
Lemma inside_is_walk (points : list point) (a0 : point) (rest : list point)
      (mm : Master.interp) (mf : Final.interp) (q : Q) :
  increasing_flows (sorted_by_flow points) = true ->
  sorted_by_flow points = a0 :: rest ->
  Master.build_interp points = Ok mm ->
  Final.build_interp points = Ok mf ->
  Master.qmin mm < q -> q < Master.qmax mm ->
  Master.estimate mm q = Value (interp_walk a0 rest q)
  /\ Final.estimate mf q = Ok (interp_walk a0 rest q).
Proof.
  intros Hinc Es Hbm Hbf Hlo Hhi.
  destruct (master_sorted_model _ mm Hinc Hbm)
    as [a [r [z [E [Hlast [Hf [Hmin Hmax]]]]]]].
  destruct (final_sorted_model _ mf Hinc Hbf)
    as [a' [r' [z' [E' [_ [Hf' _]]]]]].
  rewrite Es in E, E'. injection E as <- <-. injection E' as <- <-.
  rewrite Hmin in Hlo. rewrite Hmax in Hhi. rewrite Hf, Hf'. split.
  - now apply (f_inside a0 z).
  - apply (np_interp_inside a0 z); [exact Hlast|lra|lra].
Qed.



(** C8. On one sample list with at least two points and strictly
    increasing flows, and for a query strictly between the minimum and the
    maximum sample flow, [build_interp] of master.py, [build_interp] of
    final.py and [interpolate] of veremos.py return the same value; so they
    can only differ at or outside the bounds of the samples. *)
Theorem evaluators_agree_inside
        (pts : list point) (mm : Master.interp) (mf : Final.interp) (q : Q) :
  (2 <= length pts)%nat -> increasing_flows pts = true ->
  Master.build_interp pts = Ok mm ->
  Final.build_interp pts = Ok mf ->
  Master.qmin mm < q -> q < Master.qmax mm ->
  exists v,
    Master.estimate mm q = Value v
    /\ Final.estimate mf q = Ok v
    /\ Veremos.interpolate pts q = Ok v.
Proof.
  intros Hlen Hinc Hbm Hbf Hlo Hhi.
  destruct pts as [|a0 rest]; [cbn in Hlen; lia|].
  pose proof (sorted_by_flow_increasing _ Hinc) as Es.
  exists (interp_walk a0 rest q).
  destruct (inside_is_walk (a0 :: rest) a0 rest mm mf q) as [Hm Hf];
    try assumption; [now rewrite Es|].
  split; [exact Hm|]. split; [exact Hf|].
  destruct (master_model _ mm Hinc Hbm)
    as [a [r [z [E [Hlast [_ [Hmin Hmax]]]]]]].
  injection E as <- <-. rewrite Hmin in Hlo. rewrite Hmax in Hhi.
  unfold Veremos.interpolate. rewrite Hlast.
  assert (E0 : Qlt_bool q (fst a0) = false) by (apply Qlt_bool_false; lra).
  assert (Ez : Qlt_bool (fst z) q = false) by (apply Qlt_bool_false; lra).
  rewrite E0, Ez.
  apply (np_interp_inside a0 z); [exact Hlast|lra|lra].
Qed.

Lemma evaluators_agree_inside_witness :
  exists v,
    Master.f Veremos.head_points 120 = Value v
    /\ np_interp 120 Veremos.head_points = Ok v
    /\ Veremos.interpolate Veremos.head_points 120 = Ok v.
Proof.
  apply (evaluators_agree_inside
           Veremos.head_points
           (Master.mk_interp (Master.f Veremos.head_points) 40 280)
           (Final.mk_interp (fun q => np_interp q Veremos.head_points) 40 280)
           120); try reflexivity.
  cbn. lia.
Defined.

(** Outside the samples the three evaluators part: master.py follows the
    edge segment, final.py and veremos.py hold the edge value. *)
Lemma evaluators_differ_below :
  (exists m v,
      Master.build_interp Final.head_pts = Ok m
      /\ Master.estimate m 10 = Value v /\ v == 977.5)
  /\ (exists m,
         Final.build_interp Final.head_pts = Ok m
         /\ Final.estimate m 10 = Ok 970)
  /\ Veremos.interpolate Veremos.head_points 10 = Ok 970.
Proof.
  split; [|split; [|reflexivity]].
  - eexists. eexists. split; [reflexivity|].
    split; [vm_compute; reflexivity|reflexivity].
  - eexists. split; reflexivity.
Qed.

(** ** The sorts *)

Section InsertionSorts.

Variable goes_before : Master.candidato -> Master.candidato -> bool.
Hypothesis before_le :
  forall c h, goes_before c h = true -> Master.power_le c h.
Hypothesis after_le :
  forall c h, goes_before c h = false -> Master.power_le h c.

Lemma insert_with_perm (c : Master.candidato) (l : list Master.candidato) :
  Permutation (c :: l) (Master.insert_with goes_before c l).
Proof.
  induction l as [|h t IH]; cbn [Master.insert_with]; [reflexivity|].
  destruct (goes_before c h); [reflexivity|].
  rewrite perm_swap. now constructor.
Qed.

Lemma sort_with_perm (l : list Master.candidato) :
  Permutation l (Master.sort_with goes_before l).
Proof.
  induction l as [|c t IH]; cbn [Master.sort_with]; [constructor|].
  rewrite <- insert_with_perm. now constructor.
Qed.

Lemma insert_with_sorted (c : Master.candidato) (l : list Master.candidato) :
  StronglySorted Master.power_le l ->
  StronglySorted Master.power_le (Master.insert_with goes_before c l).
Proof.
  induction 1 as [|h t Hs IH Hall]; cbn [Master.insert_with].
  - repeat constructor.
  - destruct (goes_before c h) eqn:E.
    + constructor; [now constructor|].
      apply before_le in E. constructor; [exact E|].
      eapply Forall_impl; [|exact Hall].
      unfold Master.power_le in *. cbn. intros x Hx. lra.
    + constructor; [exact IH|].
      apply (Permutation_Forall (insert_with_perm c t)).
      constructor; [now apply after_le|exact Hall].
Qed.

Lemma sort_with_sorts : Master.sorts_by_power (Master.sort_with goes_before).
Proof.
  intro l. split; [apply sort_with_perm|].
  induction l as [|c t IH]; cbn [Master.sort_with]; [constructor|].
  now apply insert_with_sorted.
Qed.

End InsertionSorts.

Lemma sort_stable_sorts : Master.sorts_by_power Master.sort_stable.
Proof.
  apply sort_with_sorts; unfold Master.power_le; intros c h E.
  - now apply Qle_bool_iff.
  - apply Qle_bool_false in E. lra.
Qed.

Lemma sort_reversing_ties_sorts :
  Master.sorts_by_power Master.sort_reversing_ties.
Proof.
  apply sort_with_sorts; unfold Master.power_le; intros c h E.
  - apply Qlt_bool_iff in E. lra.
  - now apply Qlt_bool_false.
Qed.

(** ** The loop over N_par *)

(** The only exception of the loop body is the division by a zero head. *)
Lemma loop_body_cases (Q_total H_total : Q) (n : Z) :
  (Master.head_interp (Q_total / inject_Z n) == 0
   /\ Master.loop_body Q_total H_total n = Raise ZeroDivisionError)
  \/ (~ Master.head_interp (Q_total / inject_Z n) == 0
      /\ exists c, Master.loop_body Q_total H_total n = Ok c
                   /\ Master.N_par c = n).
Proof.
  unfold Master.loop_body.
  destruct (Qeq_bool (Master.head_interp (Q_total / inject_Z n)) 0) eqn:E.
  - left. split; [now apply Qeq_bool_eq|reflexivity].
  - right. split; [now apply Qeq_bool_neq|].
    eexists. split; reflexivity.
Qed.

Lemma loop_result (Q_total H_total : Q) (ns : list Z) :
  forall acc,
    (exists cs,
        Master.loop Q_total H_total ns acc = Ok (acc ++ cs)
        /\ Forall2 (fun n c => Master.loop_body Q_total H_total n = Ok c) ns cs)
    \/ (Master.loop Q_total H_total ns acc = Raise ZeroDivisionError
        /\ exists n, In n ns
                     /\ Master.head_interp (Q_total / inject_Z n) == 0).
Proof.
  induction ns as [|n ns IH]; intro acc; cbn [Master.loop].
  - left. exists []. split; [now rewrite app_nil_r|constructor].
  - destruct (loop_body_cases Q_total H_total n) as [[Hz E] | [_ [c [E _]]]];
      rewrite E.
    + right. split; [reflexivity|]. exists n. split; [now left|exact Hz].
    + destruct (IH (acc ++ [c])) as [[cs [El Hall]] | [El [k [Hk Hz]]]].
      * left. exists (c :: cs). split.
        -- rewrite El, <- app_assoc. reflexivity.
        -- now constructor.
      * right. split; [exact El|]. exists k. split; [now right|exact Hz].
Qed.



(** ** Claims on the arrangement search *)

(** C1. Coverage: every candidate of the search should have
    stations * per-pump head >= target head.  The script computes the
    stations as [math.ceil(H_total / Hb)] for whatever [Hb] the
    extrapolated head curve gives, and at its own design flow of 800 L/s
    the head of a single pump is negative: for a target head of 2400 m the
    candidate N_par = 1 has head -1210 m, -1 stations and an available head
    of 1210 m, below the target, and it is in the list the search returns. *)
Theorem coverage_fails_on_negative_head
        (sort_values : list Master.candidato -> list Master.candidato) :
  Master.sorts_by_power sort_values ->
  exists cs c,
    Master.df_candidatos sort_values Master.Q_total_Ls 2400 = Ok cs
    /\ In c cs
    /\ Master.N_par c = 1%Z
    /\ Master.H_bomba_m c == -1210
    /\ Master.N_est c = (-1)%Z
    /\ Master.H_total_disp_m c == 1210
    /\ Master.H_total_disp_m c < 2400.
Proof.
  intro Hsort. unfold Master.df_candidatos.
  destruct (Master.candidatos Master.Q_total_Ls 2400) as [[|c rest]|e] eqn:E;
    vm_compute in E; try discriminate.
  exists (sort_values (c :: rest)), c. split; [reflexivity|]. split.
  - apply (Permutation_in c (proj1 (Hsort (c :: rest)))). now left.
  - injection E as <- _. cbn. repeat split; reflexivity.
Qed.

Lemma coverage_fails_on_negative_head_witness :
  exists cs c,
    Master.df_candidatos Master.sort_stable 800 2400 = Ok cs
    /\ In c cs
    /\ Master.N_par c = 1%Z
    /\ Master.H_bomba_m c == -1210
    /\ Master.N_est c = (-1)%Z
    /\ Master.H_total_disp_m c == 1210
    /\ Master.H_total_disp_m c < 2400.
Proof.
  exact (coverage_fails_on_negative_head Master.sort_stable sort_stable_sorts).
Defined.

(** C10. The loop should append nine candidates for every input.  When the
    head of a pump is exactly zero the division [H_total / Hb] raises: at a
    total flow of 360 L/s the head of a single pump is 0, the loop stops at
    N_par = 1 with ZeroDivisionError and no candidate list is produced. *)
Theorem zero_head_aborts_the_loop :
  Master.head_interp (360 / inject_Z 1) == 0
  /\ Master.candidatos 360 2400 = Raise ZeroDivisionError
  /\ (forall sort_values,
         Master.df_candidatos sort_values 360 2400 = Raise ZeroDivisionError).
Proof.
  split; [reflexivity|].
  assert (E : Master.candidatos 360 2400 = Raise ZeroDivisionError)
    by (vm_compute; reflexivity).
  split; [exact E|]. intro sort_values.
  unfold Master.df_candidatos. now rewrite E.
Qed.

Lemma Forall2_length_eq (A B : Type) (R : A -> B -> Prop)
      (l : list A) (l' : list B) :
  Forall2 R l l' -> length l = length l'.
Proof. induction 1; cbn; congruence. Qed.

(** The two ways the search can end. *)
Lemma search_outcome
      (sort_values : list Master.candidato -> list Master.candidato)
      (Q_total H_total : Q) :
  (exists raw,
      Master.candidatos Q_total H_total = Ok raw
      /\ length raw = 9%nat
      /\ map Master.N_par raw = Master.range_1_10
      /\ Master.df_candidatos sort_values Q_total H_total
         = Ok (sort_values raw))
  \/ (Master.df_candidatos sort_values Q_total H_total
      = Raise ZeroDivisionError
      /\ exists n, In n Master.range_1_10
                   /\ Master.head_interp (Q_total / inject_Z n) == 0).
Proof.
  unfold Master.df_candidatos, Master.candidatos.
  destruct (loop_result Q_total H_total Master.range_1_10 [])
    as [[cs [E Hall]] | [E Hz]]; rewrite E; cbn [app].
  - left. pose proof (Forall2_length_eq _ _ _ _ _ Hall) as Hlen. cbn in Hlen.
    destruct cs as [|c cs]; [discriminate Hlen|].
    exists (c :: cs). repeat split; [now symmetry|].
    clear E Hlen. revert Hall.
    generalize (c :: cs). generalize Master.range_1_10.
    induction 1 as [|k d ns ds Hk _ IH]; [reflexivity|]. cbn [map].
    destruct (loop_body_cases Q_total H_total k) as [[_ E] | [_ [d' [E Hd]]]];
      rewrite E in Hk; [discriminate|].
    injection Hk as ->. now rewrite Hd, IH.
  - right. split; [reflexivity|exact Hz].
Qed.

(** The counterexample to C5 as stated: a total flow that is not positive
    is searched like any other, and nine candidates come back. *)
Lemma non_positive_flow_is_searched :
  (exists cs, Master.candidatos 0 2400 = Ok cs /\ length cs = 9%nat)
  /\ (exists cs, Master.candidatos (-800) 2400 = Ok cs /\ length cs = 9%nat)
  /\ ~ (exists sort_values,
           Master.df_candidatos sort_values 0 2400 = Raise RuntimeError).
Proof.
  assert (E0 : exists cs, Master.candidatos 0 2400 = Ok cs /\ length cs = 9%nat).
  { destruct (Master.candidatos 0 2400) as [cs|e] eqn:E.
    - exists cs. split; [reflexivity|].
      vm_compute in E. injection E as <-. reflexivity.
    - vm_compute in E. discriminate. }
  split; [exact E0|]. split.
  - destruct (Master.candidatos (-800) 2400) as [cs|e] eqn:E.
    + exists cs. split; [reflexivity|].
      vm_compute in E. injection E as <-. reflexivity.
    + vm_compute in E. discriminate.
  - intros [sort_values H]. unfold Master.df_candidatos in H.
    destruct E0 as [cs [E Hlen]]. rewrite E in H.
    destruct cs; [discriminate Hlen|discriminate H].
Qed.

(** C5, as the code has it: the range 1..9 is fixed and nothing is filtered
    out, so the search never fails with the no-feasible-arrangement error,
    whatever the total flow (positive or not) and the target head; and
    whenever none of the nine pump heads is zero it returns the nine
    candidates, in the order [sort_values] gives them. *)
Theorem no_feasible_error_is_never_raised
        (sort_values : list Master.candidato -> list Master.candidato)
        (Q_total H_total : Q) :
  Master.df_candidatos sort_values Q_total H_total <> Raise RuntimeError
  /\ ((forall n, In n Master.range_1_10 ->
                 ~ Master.head_interp (Q_total / inject_Z n) == 0) ->
      exists cs,
        Master.candidatos Q_total H_total = Ok cs
        /\ length cs = 9%nat
        /\ map Master.N_par cs = Master.range_1_10
        /\ Master.df_candidatos sort_values Q_total H_total
           = Ok (sort_values cs)).
Proof.
  destruct (search_outcome sort_values Q_total H_total)
    as [[raw [Eraw [Hlen [Hmap Hdf]]]] | [Hdf [n [Hn Hz]]]]; rewrite Hdf.
  - split; [discriminate|]. intros _. now exists raw.
  - split; [discriminate|]. intro Hnz. exfalso. exact (Hnz n Hn Hz).
Qed.




(** ** Construction of a model *)

Lemma insert_by_flow_length (p : point) (l : list point) :
  length (insert_by_flow p l) = S (length l).
Proof.
  induction l as [|h t IH]; [reflexivity|]. cbn [insert_by_flow].
  destruct (Qle_bool (fst p) (fst h)); cbn [length]; congruence.
Qed.

Lemma sorted_by_flow_length (l : list point) :
  length (sorted_by_flow l) = length l.
Proof.
  induction l as [|p t IH]; [reflexivity|].
  cbn [sorted_by_flow]. rewrite insert_by_flow_length. cbn. congruence.
Qed.

Lemma penultimate_some (A : Type) (l : list A) :
  forall a b, exists y, penultimate (a :: b :: l) = Some y.
Proof.
  induction l as [|c l IH]; intros a b.
  - exists a. reflexivity.
  - destruct (IH b c) as [y Hy]. exists y. exact Hy.
Qed.

Lemma edge_never_raises (a b o : point) (q : Q) (e : exn) :
  Master.edge a b o q <> Raised e.
Proof.
  unfold Master.edge. destruct (Qeq_bool (fst b - fst a) 0); discriminate.
Qed.

(** With two samples or more, no index is out of range in [f]. *)
Lemma f_never_raises (pts : list point) (q : Q) (e : exn) :
  (2 <= length pts)%nat -> Master.f pts q <> Raised e.
Proof.
  intro Hlen. destruct pts as [|p0 [|p1 rest]]; try (cbn in Hlen; lia).
  unfold Master.f.
  destruct (Qle_bool q (fst p0)); [apply edge_never_raises|].
  destruct (last_opt_some _ p0 (p1 :: rest)) as [z Hz]. rewrite Hz.
  destruct (penultimate_some _ rest p0 p1) as [y Hy]. rewrite Hy.
  destruct (Qle_bool (fst z) q); [apply edge_never_raises|].
  unfold np_interp. rewrite Hz.
  destruct (Qlt_bool (fst z) q); [discriminate|].
  destruct (Qlt_bool q (fst p0)); discriminate.
Qed.

(** The counterexample to C4 as stated: a single sample is fewer than two
    and the model is built all the same, the failure is left to
    [estimate]; two samples of equal flow give a model as well, whose
    estimate at that flow is a non-finite float and no error. *)
Lemma construction_is_not_validated :
  (exists m,
      Master.build_interp [(40, 970)] = Ok m
      /\ Master.estimate m 40 = Raised IndexError
      /\ Master.estimate m 100 = Raised IndexError)
  /\ (exists m,
         Master.build_interp [(40, 970); (40, 960)] = Ok m
         /\ Master.estimate m 40 = NotFinite).
Proof.
  split; eexists; repeat split; reflexivity.
Qed.

(** C4, as the code has it: [build_interp] checks nothing.  Building the
    model fails exactly when no sample at all is supplied (the minimum of
    an empty array, a ValueError).  With a single sample the model is built
    and every estimate then raises IndexError; with two samples or more the
    model is built and no estimate raises, whether or not two samples share
    a flow. *)
Theorem construction_fails_only_when_empty :
  (forall points,
      (exists e, Master.build_interp points = Raise e) <-> points = [])
  /\ Master.build_interp [] = Raise ValueError
  /\ (forall p, exists m,
         Master.build_interp [p] = Ok m
         /\ forall q, Master.estimate m q = Raised IndexError)
  /\ (forall points,
         (2 <= length points)%nat ->
         exists m,
           Master.build_interp points = Ok m
           /\ forall q e, Master.estimate m q <> Raised e).
Proof.
  split; [|split; [reflexivity|split]].
  - intro points. split.
    + intros [e He]. destruct points as [|p l]; [reflexivity|].
      destruct (master_build_total p l) as [m [Hm _]]. congruence.
    + intros ->. exists ValueError. reflexivity.
  - intro p. eexists. split; [reflexivity|]. intro q.
    cbn. destruct (Qle_bool q (fst p)) eqn:E1; [reflexivity|].
    destruct (Qle_bool (fst p) q) eqn:E2; [reflexivity|].
    apply Qle_bool_false in E1. apply Qle_bool_false in E2. lra.
  - intros points Hlen.
    destruct points as [|p l]; [cbn in Hlen; lia|].
    destruct (master_build_total p l) as [m [Hm Hf]].
    exists m. split; [exact Hm|]. intros q e. rewrite Hf.
    apply f_never_raises. now rewrite sorted_by_flow_length.
Qed.

(** ** Wall thickness and hoop stress *)

Lemma bind_ok (A B : Type) (r : result A) (k : A -> result B) (b : B) :
  (x <- r ;; k x) = Ok b -> exists a, r = Ok a /\ k a = Ok b.
Proof.
  destruct r as [a|e]; cbn; [|discriminate]. intro H. now exists a.
Qed.

Lemma bind_pydiv_ok (B : Type) (x y : Q) (k : Q -> result B) (b : B) :
  (v <- pydiv x y ;; k v) = Ok b -> ~ y == 0 /\ k (x / y) = Ok b.
Proof.
  unfold bind, pydiv. destruct (Qeq_bool y 0) eqn:E; [discriminate|].
  intro H. split; [now apply Qeq_bool_neq|exact H].
Qed.

Ltac divide_in H :=
  let Hn := fresh "Hn" in apply bind_pydiv_ok in H; destruct H as [Hn H].

(** estanques.py: when the thickness utilisation is computed, so is the
    hoop utilisation, and the two are the same number. *)
Lemma estanques_utilisations (tr : Estanques.tramo) (r : Estanques.fila) (a : Q) :
  Estanques.calcular tr = Ok r ->
  Estanques.util_e r = Some a ->
  exists b, Estanques.util_hoop r = Some b /\ a == b.
Proof.
  unfold Estanques.calcular.
  set (P := Estanques.rho * Estanques.g * Estanques.H_diseno_m tr).
  generalize (lookup Estanques.e_adopt_mm (Estanques.id tr)). intros o H.
  do 2 divide_in H.
  set (e_req := P * Estanques.D / (2 * Estanques.sigma_allow) * 1000) in H.
  set (e_ad := match o with Some e => e | None => e_req end) in H.
  do 3 divide_in H.
  apply bind_ok in H. destruct H as [u_e [He H]].
  apply bind_ok in H. destruct H as [u_h [Hh H]].
  injection H as <-. cbn. intros ->.
  destruct (Qlt_bool 0 e_ad); [|discriminate].
  divide_in He. injection He as <-.
  change (Qlt_bool 0 Estanques.sigma_allow) with true in Hh.
  divide_in Hh. injection Hh as <-.
  eexists. split; [reflexivity|].
  unfold e_req. field. split; assumption.
Qed.

(** veremos.py: the same identity between the columns of a row. *)
Lemma veremos_utilisations
      (H_est : list (string * Q)) (tr : Veremos.tramo) (r : Veremos.fila_esp) :
  Veremos.fila H_est tr = Ok r ->
  Veremos.e_req_mm r / Veremos.e_adopt_mm r
  == (Veremos.hoop_MPa r * 1e6) / Veremos.sigma_allow
  /\ Veremos.util_pct r
     == (Veremos.e_req_mm r / Veremos.e_adopt_mm r) * 100.
Proof.
  unfold Veremos.fila. intro H.
  apply bind_ok in H. destruct H as [Hd [_ H]].
  set (P := Veremos.rho * Veremos.g * Hd) in H.
  divide_in H.
  apply bind_ok in H. destruct H as [e_ad [_ H]].
  do 5 divide_in H.
  injection H as <-. cbn. split; [|reflexivity].
  field. split; [assumption|].
  intro Hs. apply Hn. rewrite Hs. reflexivity.
Qed.


(** * Further properties of the code *)

(** ** Brackets and clamping *)

(** Every query between the first and the last sample has a bracket of two
    neighbouring samples. *)
Lemma bracket_exists (rest : list point) :
  forall (a0 z : point) (x : Q),
    increasing_flows (a0 :: rest) = true ->
    rest <> [] ->
    last_opt (a0 :: rest) = Some z ->
    fst a0 <= x -> x <= fst z ->
    exists front a b back,
      a0 :: rest = front ++ a :: b :: back /\ fst a <= x /\ x <= fst b.
Proof.
  induction rest as [|b rest IH]; intros a0 z x Hinc Hne Hlast H0 Hz;
    [contradiction|].
  destruct (Qlt_le_dec (fst b) x) as [Hbx | Hxb].
  - rewrite last_opt_cons in Hlast.
    destruct rest as [|c rest].
    { cbn in Hlast. injection Hlast as <-. lra. }
    destruct (IH b z x) as [front [a [b' [back [E [Ha Hb]]]]]];
      [exact (increasing_tail _ _ Hinc)|discriminate|exact Hlast|lra|exact Hz|].
    exists (a0 :: front), a, b', back. cbn [app]. rewrite <- E. tauto.
  - exists [], a0, b, rest. cbn [app]. tauto.
Qed.

Lemma on_the_chord (xa xb ya yb q v : Q) :
  xa < xb -> xa <= q -> q <= xb ->
  v == ya + ((yb - ya) / (xb - xa)) * (q - xa) ->
  Qmin ya yb <= v <= Qmax ya yb.
Proof.
  intros Hab Ha Hb Hv.
  destruct (line_param xa xb ya yb q Hab) as [t [L T]].
  rewrite Hv, L. apply chord_between.
  now apply (param_bounds xa xb q t).
Qed.

(** A value between the values of two samples lies between a smaller and a
    larger sample value. *)
Lemma between_two_samples (pts : list point) (a b : point) (v : Q) :
  In a pts -> In b pts ->
  Qmin (snd a) (snd b) <= v <= Qmax (snd a) (snd b) ->
  exists lo hi, In lo pts /\ In hi pts /\ snd lo <= v /\ v <= snd hi.
Proof.
  intros Ha Hb [Hlo Hhi].
  destruct (Qlt_le_dec (snd a) (snd b)) as [H | H].
  - exists a, b. rewrite Q.min_l, Q.max_r in * by lra. tauto.
  - exists b, a. rewrite Q.min_r, Q.max_l in * by lra. tauto.
Qed.

(** [np.interp] on an increasing curve: the edge value at and outside each
    end, and everywhere a value between two sample values. *)
Lemma np_interp_clamped (a0 z : point) (rest : list point) (q : Q) :
  increasing_flows (a0 :: rest) = true ->
  last_opt (a0 :: rest) = Some z ->
  exists v,
    np_interp q (a0 :: rest) = Ok v
    /\ (q <= fst a0 -> v = snd a0)
    /\ (fst z <= q -> v = snd z)
    /\ exists lo hi, In lo (a0 :: rest) /\ In hi (a0 :: rest)
                     /\ snd lo <= v /\ v <= snd hi.
Proof.
  intros Hinc Hlast.
  pose proof (increasing_first_le_last _ _ _ Hinc Hlast) as H0z.
  pose proof (last_opt_In _ _ _ Hlast) as Hzin.
  assert (H0in : In a0 (a0 :: rest)) by now left.
  destruct (Qlt_le_dec q (fst a0)) as [Hlt | Hge].
  { (* left of the samples *)
    exists (snd a0). unfold np_interp. rewrite Hlast.
    assert (E1 : Qlt_bool (fst z) q = false) by (apply Qlt_bool_false; lra).
    apply Qlt_bool_iff in Hlt as E2. rewrite E1, E2.
    repeat split; try reflexivity.
    - intro Hzq. lra.
    - exists a0, a0. repeat split; try assumption; apply Qle_refl. }
  destruct (Qlt_le_dec (fst z) q) as [Hgt | Hle].
  { (* right of the samples *)
    exists (snd z). unfold np_interp. rewrite Hlast.
    apply Qlt_bool_iff in Hgt as E1. rewrite E1.
    repeat split; try reflexivity.
    - intro Hq0. lra.
    - exists z, z. repeat split; try assumption; apply Qle_refl. }
  exists (interp_walk a0 rest q).
  split; [now apply (np_interp_inside a0 z)|].
  split; [|split].
  - intro Hq0. destruct rest as [|b rest]; [reflexivity|].
    apply increasing_cons in Hinc as Hab. destruct Hab as [Hab _].
    rewrite (walk_segment [] a0 (b :: rest) a0 b rest q Hinc eq_refl);
      [|lra|lra].
    unfold segment_value.
    assert (E : Qeq_bool (fst a0) q = true) by (apply Qeq_eq_bool; lra).
    now rewrite E.
  - intro Hzq. now apply walk_last.
  - destruct rest as [|b rest].
    + exists a0, a0. cbn. repeat split; try (now left); apply Qle_refl.
    + destruct (bracket_exists (b :: rest) a0 z q Hinc) as
        [front [a [b' [back [E [Ha Hb]]]]]]; try assumption; [discriminate|].
      assert (Hab : fst a < fst b').
      { rewrite E in Hinc. apply increasing_app_r in Hinc.
        apply increasing_cons in Hinc. tauto. }
      apply (between_two_samples _ a b').
      * rewrite E. apply in_or_app. right. now left.
      * rewrite E. apply in_or_app. right. right. now left.
      * apply (on_the_chord (fst a) (fst b') _ _ q); try assumption.
        now apply (walk_bracket front a0 (b :: rest) a b' back q).
Qed.

(** ** The sort of the samples *)

Lemma insert_by_flow_perm (p : point) (l : list point) :
  Permutation (p :: l) (insert_by_flow p l).
Proof.
  induction l as [|h t IH]; cbn [insert_by_flow]; [reflexivity|].
  destruct (Qle_bool (fst p) (fst h)); [reflexivity|].
  rewrite perm_swap. now constructor.
Qed.

Lemma sorted_by_flow_perm (l : list point) :
  Permutation l (sorted_by_flow l).
Proof.
  induction l as [|p t IH]; cbn [sorted_by_flow]; [constructor|].
  rewrite <- insert_by_flow_perm. now constructor.
Qed.

(** The sort returns flows in non-decreasing order. *)
Lemma insert_by_flow_sorted (p : point) (l : list point) :
  StronglySorted (fun a b : point => fst a <= fst b) l ->
  StronglySorted (fun a b : point => fst a <= fst b) (insert_by_flow p l).
Proof.
  induction 1 as [|h t Hs IH Hall]; cbn [insert_by_flow].
  - repeat constructor.
  - destruct (Qle_bool (fst p) (fst h)) eqn:E.
    + apply Qle_bool_iff in E.
      constructor; [now constructor|]. constructor; [exact E|].
      eapply Forall_impl; [|exact Hall]. cbn. intros x Hx. lra.
    + apply Qle_bool_false in E. constructor; [exact IH|].
      apply insert_by_flow_Forall. split; [lra|exact Hall].
Qed.

Lemma sorted_by_flow_sorted (l : list point) :
  StronglySorted (fun a b : point => fst a <= fst b) (sorted_by_flow l).
Proof.
  induction l as [|p t IH]; cbn [sorted_by_flow]; [constructor|].
  now apply insert_by_flow_sorted.
Qed.

(** A sorted list and an increasing list with the same elements are the
    same list. *)
Lemma sorted_perm_unique (l1 : list point) :
  forall l2,
    StronglySorted (fun a b : point => fst a <= fst b) l1 ->
    increasing_flows l2 = true ->
    Permutation l1 l2 -> l1 = l2.
Proof.
  induction l1 as [|a t1 IH]; intros l2 H1 H2 Hp.
  - apply Permutation_nil in Hp. now subst.
  - destruct l2 as [|b t2].
    { apply Permutation_sym, Permutation_nil in Hp. discriminate. }
    apply StronglySorted_inv in H1. destruct H1 as [H1 A1].
    assert (Hab : a = b).
    { pose proof (increasing_head_lt _ _ H2) as A2.
      rewrite Forall_forall in A1, A2.
      assert (Ha : In a (b :: t2))
        by (apply (Permutation_in a Hp); now left).
      assert (Hb : In b (a :: t1))
        by (apply (Permutation_in b (Permutation_sym Hp)); now left).
      destruct Ha as [Ha | Ha]; [now symmetry|].
      destruct Hb as [Hb | Hb]; [exact Hb|].
      specialize (A1 b Hb). specialize (A2 a Ha). cbn in A1, A2. lra. }
    subst b. f_equal.
    apply IH; [exact H1|exact (increasing_tail _ _ H2)|].
    exact (Permutation_cons_inv Hp).
Qed.

(** The order in which the samples are given does not matter: two lists
    with the same samples, of pairwise distinct flows, are sorted into the
    same list, and the models built from them are equal. *)
Theorem build_interp_order_independent (points points' : list point) :
  Permutation points points' ->
  increasing_flows (sorted_by_flow points) = true ->
  sorted_by_flow points' = sorted_by_flow points
  /\ Master.build_interp points' = Master.build_interp points
  /\ Final.build_interp points' = Final.build_interp points.
Proof.
  intros Hp Hinc.
  assert (E : sorted_by_flow points' = sorted_by_flow points).
  { apply sorted_perm_unique; [apply sorted_by_flow_sorted|exact Hinc|].
    rewrite <- (sorted_by_flow_perm points'), <- (sorted_by_flow_perm points).
    now symmetry. }
  split; [exact E|]. split.
  - unfold Master.build_interp. now rewrite E.
  - unfold Final.build_interp.
    rewrite (sorted_tuples_distinct points Hinc).
    rewrite (sorted_tuples_distinct points'); [now rewrite E|].
    now rewrite E.
Qed.

Lemma build_interp_order_independent_witness :
  let shuffled := [(160, 890); (40, 970); (280, 620); (80, 960); (200, 840)] in
  sorted_by_flow shuffled = sorted_by_flow Final.head_pts
  /\ Master.build_interp shuffled = Master.build_interp Final.head_pts
  /\ Final.build_interp shuffled = Final.build_interp Final.head_pts.
Proof.
  intro shuffled.
  apply (build_interp_order_independent Final.head_pts shuffled);
    [|reflexivity].
  unfold shuffled, Final.head_pts.
  apply Permutation_sym.
  apply (perm_trans (l' := [(40, 970); (160, 890); (280, 620);
                            (80, 960); (200, 840)])); [apply perm_swap|].
  apply perm_skip.
  apply (perm_trans (l' := [(160, 890); (80, 960); (280, 620); (200, 840)]));
    [apply perm_skip; apply perm_swap|].
  apply (perm_trans (l' := [(80, 960); (160, 890); (280, 620); (200, 840)]));
    [apply perm_swap|].
  apply perm_skip. apply perm_skip. apply perm_swap.
Defined.

(** ** Estimates over the whole range of a curve *)

(** On a sorted curve, from the first to the last flow, [f] gives a finite
    value between the values of a bracket that holds the query. *)
Lemma f_in_range (a0 z : point) (rest : list point) (q : Q) :
  increasing_flows (a0 :: rest) = true ->
  rest <> [] ->
  last_opt (a0 :: rest) = Some z ->
  fst a0 <= q -> q <= fst z ->
  exists v front a b back,
    a0 :: rest = front ++ a :: b :: back
    /\ fst a <= q /\ q <= fst b
    /\ Master.f (a0 :: rest) q = Value v
    /\ Qmin (snd a) (snd b) <= v <= Qmax (snd a) (snd b).
Proof.
  intros Hinc Hrest Hlast Hlo Hhi.
  destruct (Qlt_le_dec (fst a0) q) as [H0 | H0].
  - destruct (Qlt_le_dec q (fst z)) as [Hz | Hz].
    + (* strictly inside *)
      destruct (bracket_exists rest a0 z q Hinc Hrest Hlast)
        as [front [a [b [back [Eb [Ha Hb']]]]]]; [lra|lra|].
      exists (interp_walk a0 rest q), front, a, b, back.
      repeat (split; [assumption|]).
      split; [now apply (f_inside a0 z)|].
      assert (Hab : fst a < fst b).
      { rewrite Eb in Hinc. apply increasing_app_r in Hinc.
        apply increasing_cons in Hinc. tauto. }
      apply (on_the_chord (fst a) (fst b) _ _ q); try assumption.
      now apply (walk_bracket front a0 rest a b back q).
    + (* the last sample *)
      destruct (last_opt_split _ _ _ Hlast) as [front E1].
      destruct (exists_last (l := front)) as [front' [py Ey]].
      { intros ->. destruct rest; [contradiction|discriminate E1]. }
      rewrite Ey, <- app_assoc in E1. cbn [app] in E1.
      rewrite E1 in *.
      assert (Hyz : fst py < fst z).
      { apply increasing_app_r in Hinc. apply increasing_cons in Hinc. tauto. }
      eexists. exists front', py, z, []. split; [reflexivity|].
      split; [lra|]. split; [lra|].
      split; [now apply f_high|].
      apply (on_the_chord (fst py) (fst z) _ _ q); try lra.
      field. lra.
  - (* the first sample *)
    destruct rest as [|p1 rest]; [contradiction|].
    apply increasing_cons in Hinc as H01. destruct H01 as [H01 _].
    eexists. exists [], a0, p1, rest. split; [reflexivity|].
    split; [lra|]. split; [lra|].
    split; [now apply f_low|].
    apply (on_the_chord (fst a0) (fst p1) _ _ q); lra.
Qed.





Lemma interpolate_edges
        (xy : list point) (first last : point) (q : Q) :
  increasing_flows xy = true ->
  hd_error xy = Some first -> last_opt xy = Some last ->
  exists v,
    Veremos.interpolate xy q = Ok v
    /\ (q <= fst first -> v = snd first)
    /\ (fst last <= q -> v = snd last)
    /\ exists lo hi, In lo xy /\ In hi xy /\ snd lo <= v /\ v <= snd hi.
Proof.
  intros Hinc Hhd Hlast.
  destruct xy as [|a0 rest]; [discriminate|]. cbn in Hhd. injection Hhd as ->.
  destruct (np_interp_clamped first last rest q Hinc Hlast)
    as [v [Hv [Hlo [Hhi Hbt]]]].
  pose proof (increasing_first_le_last _ _ _ Hinc Hlast) as H0z.
  unfold Veremos.interpolate. rewrite Hlast.
  destruct (Qlt_bool q (fst first)) eqn:E1.
  - apply Qlt_bool_iff in E1. exists (snd first).
    repeat split; try reflexivity.
    + intro Hzq. lra.
    + exists first, first. repeat split; try (now left); apply Qle_refl.
  - destruct (Qlt_bool (fst last) q) eqn:E2.
    + apply Qlt_bool_iff in E2. apply Qlt_bool_false in E1.
      exists (snd last). repeat split; try reflexivity.
      * intro Hq0. lra.
      * pose proof (last_opt_In _ _ _ Hlast) as Hin.
        exists last, last. repeat split; try assumption; apply Qle_refl.
    + exists v. tauto.
Qed.



(** ** The bounds returned with a model *)

Lemma Qmin_cases (a x : Q) : Qmin a x = a \/ Qmin a x = x.
Proof.
  unfold Qmin, GenericMinMax.gmin. destruct (a ?= x); tauto.
Qed.

Lemma Qmax_cases (a x : Q) : Qmax a x = a \/ Qmax a x = x.
Proof.
  unfold Qmax, GenericMinMax.gmax. destruct (a ?= x); tauto.
Qed.

Lemma list_min_spec (l : list Q) :
  forall a,
    In (Master.list_min a l) (a :: l)
    /\ Forall (fun x => Master.list_min a l <= x) (a :: l).
Proof.
  unfold Master.list_min.
  induction l as [|x l IH]; intro a; cbn [fold_left].
  - split; [now left|]. constructor; [apply Qle_refl|constructor].
  - destruct (IH (Qmin a x)) as [Hin Hall].
    apply Forall_cons_iff in Hall. destruct Hall as [Hm Hall].
    pose proof (Q.le_min_l a x). pose proof (Q.le_min_r a x). split.
    + destruct Hin as [Hin | Hin]; [|right; now right].
      destruct (Qmin_cases a x) as [E | E];
        [left|right; left]; congruence.
    + constructor; [lra|]. constructor; [lra|exact Hall].
Qed.

Lemma list_max_spec (l : list Q) :
  forall a,
    In (Master.list_max a l) (a :: l)
    /\ Forall (fun x => x <= Master.list_max a l) (a :: l).
Proof.
  unfold Master.list_max.
  induction l as [|x l IH]; intro a; cbn [fold_left].
  - split; [now left|]. constructor; [apply Qle_refl|constructor].
  - destruct (IH (Qmax a x)) as [Hin Hall].
    apply Forall_cons_iff in Hall. destruct Hall as [Hm Hall].
    pose proof (Q.le_max_l a x). pose proof (Q.le_max_r a x). split.
    + destruct Hin as [Hin | Hin]; [|right; now right].
      destruct (Qmax_cases a x) as [E | E];
        [left|right; left]; congruence.
    + constructor; [lra|]. constructor; [lra|exact Hall].
Qed.

(** master.py: whatever the samples, in any order and with or without
    repeated flows, the two bounds returned with the model are flows of
    samples, and every sample flow lies between them. *)
Theorem build_interp_bounds (points : list point) (m : Master.interp) :
  Master.build_interp points = Ok m ->
  (exists p, In p points /\ fst p = Master.qmin m)
  /\ (exists p, In p points /\ fst p = Master.qmax m)
  /\ forall p, In p points -> Master.qmin m <= fst p <= Master.qmax m.
Proof.
  unfold Master.build_interp. intro Hb.
  pose proof (sorted_by_flow_perm points) as Hperm.
  destruct (map fst (sorted_by_flow points)) as [|q0 qs] eqn:E; [discriminate|].
  injection Hb as <-. cbn [Master.qmin Master.qmax].
  destruct (list_min_spec qs q0) as [Imin Amin].
  destruct (list_max_spec qs q0) as [Imax Amax].
  rewrite <- E in Imin, Imax, Amin, Amax.
  rewrite Forall_forall in Amin, Amax.
  assert (Hin : forall x, In x (map fst (sorted_by_flow points)) ->
                          exists p, In p points /\ fst p = x).
  { intros x Hx. apply in_map_iff in Hx. destruct Hx as [p [Ep Hp]].
    exists p. split; [|exact Ep].
    exact (Permutation_in p (Permutation_sym Hperm) Hp). }
  split; [now apply Hin|]. split; [now apply Hin|].
  intros p Hp.
  assert (Hp' : In (fst p) (map fst (sorted_by_flow points))).
  { apply in_map. exact (Permutation_in p Hperm Hp). }
  split; [now apply Amin|now apply Amax].
Qed.

Lemma build_interp_bounds_witness :
  let points := [(160, 890); (40, 970); (160, 880); (80, 960)] in
  exists m,
    Master.build_interp points = Ok m
    /\ (exists p, In p points /\ fst p = Master.qmin m)
    /\ (exists p, In p points /\ fst p = Master.qmax m)
    /\ forall p, In p points -> Master.qmin m <= fst p <= Master.qmax m.
Proof.
  intro points. eexists. split; [reflexivity|].
  apply (build_interp_bounds points). reflexivity.
Defined.

(** ** Candidates inside the common range of the curves *)

Lemma ceiling_covers (H hb : Q) :
  0 < hb -> H <= inject_Z (Qceiling (H / hb)) * hb.
Proof.
  intro Hpos. pose proof (Qle_ceiling (H / hb)) as Hc.
  assert (Hd : H == (H / hb) * hb) by (field; lra).
  rewrite Hd at 1. apply Qmult_le_compat_r; [exact Hc|lra].
Qed.

(** Between its first and its last flow, a closure of master.py stays
    within any bounds that hold for the values of its samples. *)
Lemma closure_within (points : list point) (a0 z : point) (rest : list point)
      (lo hi q : Q) :
  increasing_flows points = true ->
  points = a0 :: rest -> rest <> [] -> last_opt points = Some z ->
  Forall (fun p => lo <= snd p /\ snd p <= hi) points ->
  fst a0 <= q -> q <= fst z ->
  lo <= Master.closure points q <= hi.
Proof.
  intros Hinc E Hrest Hlast Hall H0 Hz.
  unfold Master.closure. rewrite (sorted_by_flow_increasing _ Hinc).
  subst points.
  destruct (f_in_range a0 z rest q Hinc Hrest Hlast H0 Hz)
    as [v [front [a [b [back [Eb [_ [_ [Hv [Hlo Hhi]]]]]]]]]].
  rewrite Hv. cbn [to_float].
  rewrite Forall_forall in Hall.
  assert (Ha : In a (a0 :: rest))
    by (rewrite Eb; apply in_or_app; right; now left).
  assert (Hb : In b (a0 :: rest))
    by (rewrite Eb; apply in_or_app; right; right; now left).
  destruct (Hall a Ha) as [La Ua]. destruct (Hall b Hb) as [Lb Ub].
  pose proof (Q.min_glb (snd a) (snd b) lo La Lb).
  pose proof (Q.max_lub (snd a) (snd b) hi Ua Ub).
  split; lra.
Qed.



(** ** [f] on arrays *)

Lemma fill_ok (pts : list point) (q_new : list Q) :
  (2 <= length pts)%nat ->
  exists ys,
    Master.fill pts q_new = Ok ys
    /\ Forall2 (fun q y =>
                  (forall v, Master.f pts q = Value v -> y = Master.Finite v)
                  /\ (Master.f pts q = NotFinite -> y = Master.NonFinite))
               q_new ys.
Proof.
  intro Hlen. induction q_new as [|q rest IH]; cbn [Master.fill].
  - exists []. split; [reflexivity|constructor].
  - destruct IH as [ys [E Hall]].
    destruct (Master.f pts q) as [v| |e] eqn:Ef.
    + rewrite E. cbn. eexists. split; [reflexivity|].
      constructor; [|exact Hall]. split; intros; congruence.
    + rewrite E. cbn. eexists. split; [reflexivity|].
      constructor; [|exact Hall]. split; intros; congruence.
    + exfalso. exact (f_never_raises pts q e Hlen Ef).
Qed.

(** master.py: [f] of a model with two samples or more, called on an
    array.  An empty array raises IndexError; an array of one element
    comes back as a scalar, not as an array; a longer array comes back as
    an array of the same length that holds, place by place, what [f] gives
    for the scalar. *)
Theorem f_on_arrays (pts : list point) :
  (2 <= length pts)%nat ->
  Master.f_array pts [] = Master.Throws IndexError
  /\ (forall q, exists y,
         Master.f_array pts [q] = Master.Scalar y
         /\ (forall v, Master.f pts q = Value v -> y = Master.Finite v)
         /\ (Master.f pts q = NotFinite -> y = Master.NonFinite))
  /\ (forall q_new,
         (2 <= length q_new)%nat ->
         exists ys,
           Master.f_array pts q_new = Master.Array ys
           /\ Forall2 (fun q y =>
                         (forall v, Master.f pts q = Value v ->
                                    y = Master.Finite v)
                         /\ (Master.f pts q = NotFinite ->
                             y = Master.NonFinite))
                      q_new ys).
Proof.
  intro Hlen. split; [reflexivity|]. split.
  - intro q. destruct (fill_ok pts [q] Hlen) as [ys [E Hall]].
    unfold Master.f_array. rewrite E.
    inversion Hall as [|x y l l' Hxy Hrest]; subst.
    inversion Hrest; subst. exists y. split; [reflexivity|exact Hxy].
  - intros q_new Hq. destruct (fill_ok pts q_new Hlen) as [ys [E Hall]].
    unfold Master.f_array. rewrite E.
    pose proof (Forall2_length_eq _ _ _ _ _ Hall) as Hl.
    destruct ys as [|y [|y' ys]]; try (cbn in Hl; lia).
    eexists. split; [reflexivity|exact Hall].
Qed.

Lemma f_on_arrays_witness :
  Master.f_array Master.head_points [] = Master.Throws IndexError
  /\ (forall q, exists y,
         Master.f_array Master.head_points [q] = Master.Scalar y
         /\ (forall v, Master.f Master.head_points q = Value v ->
                       y = Master.Finite v)
         /\ (Master.f Master.head_points q = NotFinite ->
             y = Master.NonFinite))
  /\ (forall q_new,
         (2 <= length q_new)%nat ->
         exists ys,
           Master.f_array Master.head_points q_new = Master.Array ys
           /\ Forall2 (fun q y =>
                         (forall v, Master.f Master.head_points q = Value v ->
                                    y = Master.Finite v)
                         /\ (Master.f Master.head_points q = NotFinite ->
                             y = Master.NonFinite))
                      q_new ys).
Proof.
  apply (f_on_arrays Master.head_points). cbn. lia.
Defined.

(** ** Friction losses and the head per station *)

Lemma fold_plus_shift (l : list Q) (a : Q) :
  fold_left Qplus l a == a + suma l.
Proof.
  unfold suma. revert a. induction l as [|x l IH]; intro a; cbn [fold_left].
  - ring.
  - rewrite (IH (a + x)), (IH (0 + x)). ring.
Qed.

Lemma suma_cons (x : Q) (l : list Q) : suma (x :: l) == x + suma l.
Proof.
  unfold suma at 1. cbn [fold_left]. rewrite fold_plus_shift. ring.
Qed.

Lemma suma_nil : suma [] == 0.
Proof. reflexivity. Qed.

Lemma suma_hf (v : Q) (l : list Q) :
  suma (map (Master.hf_i v) l)
  == Master.f_Darcy * (suma l / Master.D) * (v ^ 2 / (2 * Master.g)).
Proof.
  induction l as [|x l IH]; cbn [map].
  - rewrite !suma_nil. unfold Master.D, Master.g. field.
  - rewrite !suma_cons, IH. unfold Master.hf_i, Master.D, Master.g. field.
Qed.

(** master.py: the friction losses add up to the loss of one pipe of the
    total length, no loss is negative, and the total dynamic head is the
    static head of 2154 m plus these losses; for [math.pi] between 3.14 and
    3.15 it lies between 2341 and 2343 m. *)
Theorem friction_losses (pi : Q) :
  Master.hf_total pi
  == Master.f_Darcy * (suma Master.L_m / Master.D)
     * (Master.V pi ^ 2 / (2 * Master.g))
  /\ Forall (fun h => 0 <= h) (Master.hf_segmentos pi)
  /\ Master.H_static == 2154
  /\ Master.H_static <= Master.H_total pi
  /\ (3.14 < pi -> pi < 3.15 ->
      2341 < Master.H_total pi /\ Master.H_total pi < 2343).
Proof.
  assert (Hsum : Master.hf_total pi
                 == Master.f_Darcy * (suma Master.L_m / Master.D)
                    * (Master.V pi ^ 2 / (2 * Master.g)))
    by apply suma_hf.
  assert (Hsq : 0 <= Master.V pi ^ 2).
  { change (Master.V pi ^ 2) with (Master.V pi * Master.V pi). nra. }
  assert (Hstat : Master.H_static == 2154) by reflexivity.
  assert (Hk : Master.hf_total pi == (146175 # 1962) * Master.V pi ^ 2).
  { rewrite Hsum.
    assert (E : suma Master.L_m == 58470) by reflexivity.
    rewrite E. unfold Master.f_Darcy, Master.D, Master.g. field. }
  split; [exact Hsum|]. split; [|split; [exact Hstat|split]].
  - unfold Master.hf_segmentos. apply Forall_forall. intros h Hh.
    apply in_map_iff in Hh. destruct Hh as [Li [<- HLi]].
    assert (HL : 0 <= Li).
    { unfold Master.L_m, Master.L_km in HLi. cbn in HLi.
      repeat (destruct HLi as [<- | HLi]; [vm_compute; discriminate|]).
      contradiction. }
    unfold Master.hf_i.
    assert (H1 : 0 <= Li / Master.D)
      by (apply Qle_shift_div_l; [reflexivity|lra]).
    assert (H2 : 0 <= Master.V pi ^ 2 / (2 * Master.g))
      by (apply Qle_shift_div_l; [reflexivity|lra]).
    unfold Master.f_Darcy. nra.
  - unfold Master.H_total. rewrite Hk. nra.
  - intros Hlo Hhi. unfold Master.H_total. rewrite Hk, Hstat.
    assert (HV : Master.V pi == 5 / pi).
    { unfold Master.V, Master.A, Master.Q_total_m3s, Master.Q_total_Ls,
        Master.D. field. lra. }
    assert (HV2 : Master.V pi ^ 2 * (pi * pi) == 25).
    { rewrite HV. field. lra. }
    assert (Hpp : 98596 # 10000 < pi * pi) by nra.
    assert (Hpp' : pi * pi < 99225 # 10000) by nra.
    set (w := Master.V pi ^ 2) in *. split; nra.
Qed.

(** master.py, section 5: the three stations split the seven segments and
    their end nodes follow one another from node 2 to node 9.  Given the
    seven lengths and the seven losses, the loop produces one row per
    station, and the rows add up: the heads to the static head plus all
    the losses, the elevation gains to the static head, the lengths and
    the losses to their totals.  With fewer than seven losses the loop
    stops with IndexError. *)
Theorem station_heads_add_up (lengths losses : list Q) :
  length lengths = 7%nat ->
  (length losses = 7%nat ->
   exists rows,
     Master.desglose lengths losses = Ok rows
     /\ map Master.st rows = [1; 2; 3]%Z
     /\ suma (map Master.H_st rows) == Master.H_static + suma losses
     /\ suma (map Master.dz_st rows) == Master.H_static
     /\ suma (map Master.L_st rows) == suma lengths
     /\ suma (map Master.hf_st rows) == suma losses)
  /\ ((length losses < 7)%nat ->
      Master.desglose lengths losses = Raise IndexError).
Proof.
  intro HL.
  destruct lengths as [|l0 [|l1 [|l2 [|l3 [|l4 [|l5 [|l6 [|]]]]]]]];
    try discriminate HL.
  split.
  - intro Hh.
    destruct losses as [|h0 [|h1 [|h2 [|h3 [|h4 [|h5 [|h6 [|]]]]]]]];
      try discriminate Hh.
    eexists. split; [reflexivity|]. split; [reflexivity|].
    cbn [map Master.H_st Master.dz_st Master.L_st Master.hf_st].
    assert (Hs : Master.H_static == 2154) by reflexivity.
    rewrite Hs. unfold suma. cbn [fold_left].
    repeat split; ring.
  - intro Hh.
    destruct losses as [|h0 [|h1 [|h2 [|h3 [|h4 [|h5 [|h6 [|]]]]]]]];
      try (cbn in Hh; lia); reflexivity.
Qed.

Lemma station_heads_add_up_witness :
  (exists rows,
      Master.desglose Master.L_m (Master.hf_segmentos 3.14159) = Ok rows
      /\ map Master.st rows = [1; 2; 3]%Z
      /\ suma (map Master.H_st rows)
         == Master.H_static + suma (Master.hf_segmentos 3.14159)
      /\ suma (map Master.dz_st rows) == Master.H_static
      /\ suma (map Master.L_st rows) == suma Master.L_m
      /\ suma (map Master.hf_st rows) == suma (Master.hf_segmentos 3.14159))
  /\ ((length (Master.hf_segmentos 3.14159) < 7)%nat ->
      Master.desglose Master.L_m (Master.hf_segmentos 3.14159)
      = Raise IndexError).
Proof.
  destruct (station_heads_add_up
              Master.L_m (Master.hf_segmentos 3.14159) eq_refl)
    as [H1 H2].
  split; [exact (H1 eq_refl)|exact H2].
Defined.

(** ** The selected arrangement at the design flow *)

Lemma Qceiling_unique (x : Q) (n : Z) :
  inject_Z (n - 1) < x -> x <= inject_Z n -> Qceiling x = n.
Proof.
  intros Hlo Hhi.
  pose proof (Qle_ceiling x) as H1. pose proof (Qceiling_lt x) as H2.
  assert (A : inject_Z (n - 1) < inject_Z (Qceiling x)) by lra.
  assert (B : inject_Z (Qceiling x - 1) < inject_Z n) by lra.
  rewrite <- Zlt_Qlt in A, B. lia.
Qed.

Lemma Qceiling_positive (x : Q) : 0 < x -> 1 <= inject_Z (Qceiling x).
Proof.
  intro Hx. pose proof (Qle_ceiling x) as H1.
  assert (A : inject_Z 0 < inject_Z (Qceiling x))
    by (change (inject_Z 0) with 0; lra).
  rewrite <- Zlt_Qlt in A.
  assert (B : (1 <= Qceiling x)%Z) by lia.
  rewrite Zle_Qle in B. exact B.
Qed.

Lemma loop_body_ok (Q_total H_total : Q) (n : Z) :
  ~ Master.head_interp (Q_total / inject_Z n) == 0 ->
  Master.loop_body Q_total H_total n =
  Ok (Master.mk_candidato
        n (Q_total / inject_Z n)
        (Master.head_interp (Q_total / inject_Z n))
        (Master.eff_interp (Q_total / inject_Z n))
        (Master.power_interp (Q_total / inject_Z n))
        (Qceiling (H_total / Master.head_interp (Q_total / inject_Z n)))
        (inject_Z (Qceiling
                     (H_total / Master.head_interp (Q_total / inject_Z n)))
         * Master.head_interp (Q_total / inject_Z n))
        (inject_Z n
         * inject_Z (Qceiling
                       (H_total / Master.head_interp (Q_total / inject_Z n)))
         * Master.power_interp (Q_total / inject_Z n))).
Proof.
  intro Hnz. unfold Master.loop_body.
  destruct (Qeq_bool (Master.head_interp (Q_total / inject_Z n)) 0) eqn:E;
    [|reflexivity].
  apply Qeq_bool_eq in E. contradiction.
Qed.

(** The total power of a candidate with positive head and positive pump
    power, for a positive target head. *)
Lemma positive_total_power (H hb pb : Q) (n : Z) :
  0 < H -> 0 < hb -> 0 < pb -> (0 < n)%Z ->
  0 < inject_Z n * inject_Z (Qceiling (H / hb)) * pb.
Proof.
  intros HH Hhb Hpb Hn.
  assert (Hq : 0 < H / hb) by (apply Qlt_shift_div_l; lra).
  pose proof (Qceiling_positive _ Hq) as Hc.
  assert (Hn' : 1 <= inject_Z n).
  { assert (B : (1 <= n)%Z) by lia. rewrite Zle_Qle in B. exact B. }
  set (a := inject_Z n) in *. set (b := inject_Z (Qceiling (H / hb))) in *.
  assert (Hab : 0 < a * b) by nra.
  apply Qmult_lt_0_compat; assumption.
Qed.

(** master.py, at its design flow of 800 L/s: for every target head
    strictly between 2310 and 2420 m, and whatever [sort_values] does with
    ties, the arrangement the script selects is two pumps in parallel with
    -21 stations in series, a total power of -457800 kW and an available
    head of 2310 m, less than the target. *)
Theorem selected_arrangement_at_design_flow
        (sort_values : list Master.candidato -> list Master.candidato)
        (H_total : Q) :
  Master.sorts_by_power sort_values ->
  2310 < H_total -> H_total < 2420 ->
  exists best,
    Master.mejor sort_values Master.Q_total_Ls H_total = Ok best
    /\ Master.N_par best = 2%Z
    /\ Master.N_est best = (-21)%Z
    /\ Master.P_total_kW best == -457800
    /\ Master.H_total_disp_m best == 2310
    /\ Master.H_total_disp_m best < H_total.
Proof.
  intros Hsort Hlo Hhi.
  unfold Master.mejor, Master.df_candidatos, Master.candidatos,
    Master.range_1_10, Master.Q_total_Ls.
  cbn [Master.loop].
  rewrite !(loop_body_ok 800 H_total) by (vm_compute; discriminate).
  cbn [app].
  match goal with
  | |- context [sort_values ?l] => set (raw := l)
  end.
  destruct (Hsort raw) as [Hperm Hsorted].
  destruct (sort_values raw) as [|best rest] eqn:Es.
  { apply Permutation_sym, Permutation_nil in Hperm. discriminate. }
  exists best. split; [reflexivity|].
  (* the head and the power of the candidates 1 and 2 *)
  assert (E1 : Qceiling (H_total / Master.head_interp (800 / inject_Z 1))
               = (-1)%Z).
  { assert (Eh : Master.head_interp (800 / inject_Z 1) == -1210)
      by reflexivity.
    rewrite (Qceiling_comp _ (H_total * (-1 # 1210)))
      by (rewrite Eh; field).
    apply Qceiling_unique.
    - change (inject_Z (-1 - 1)) with (-2 # 1). lra.
    - change (inject_Z (-1)) with (-1 # 1). lra. }
  assert (E2 : Qceiling (H_total / Master.head_interp (800 / inject_Z 2))
               = (-21)%Z).
  { assert (Eh : Master.head_interp (800 / inject_Z 2) == -110)
      by reflexivity.
    rewrite (Qceiling_comp _ (H_total * (-1 # 110)))
      by (rewrite Eh; field).
    apply Qceiling_unique.
    - change (inject_Z (-21 - 1)) with (-22 # 1). lra.
    - change (inject_Z (-21)) with (-21 # 1). lra. }
  (* the first row is in the list and no row is below it *)
  assert (Hin : In best raw).
  { apply (Permutation_in best (Permutation_sym Hperm)). now left. }
  assert (Hmin : forall c, In c raw ->
                           Master.P_total_kW best <= Master.P_total_kW c).
  { intros c Hc. apply (Permutation_in c Hperm) in Hc.
    apply StronglySorted_inv in Hsorted. destruct Hsorted as [_ Hall].
    rewrite Forall_forall in Hall.
    destruct Hc as [<- | Hc]; [apply Qle_refl|exact (Hall c Hc)]. }
  assert (H2 : Master.P_total_kW best <= -457800).
  { eapply Qle_trans; [apply (Hmin (nth 1 raw best))|].
    - unfold raw. cbn. right. now left.
    - unfold raw. cbn [nth Master.P_total_kW]. rewrite E2.
      vm_compute. discriminate. }
  assert (Hpos : 0 < H_total) by lra.
  unfold raw in Hin. cbn [In] in Hin.
  destruct Hin as [<- | [<- | Hin]].
  - (* N_par = 1 *)
    exfalso. cbn [Master.P_total_kW] in H2. rewrite E1 in H2.
    revert H2. vm_compute. intro H2. now apply H2.
  - (* N_par = 2 *)
    cbn [Master.N_par Master.N_est Master.P_total_kW Master.H_total_disp_m].
    rewrite E2. split; [reflexivity|]. split; [reflexivity|].
    split; [reflexivity|].
    assert (Ed : inject_Z (-21) * Master.head_interp (800 / inject_Z 2)
                 == 2310) by reflexivity.
    split; [exact Ed|]. rewrite Ed. exact Hlo.
  - (* N_par from 3 to 9: the total power is positive *)
    exfalso.
    repeat (destruct Hin as [<- | Hin];
            [cbn [Master.P_total_kW] in H2;
             match type of H2 with
             | inject_Z ?n * inject_Z (Qceiling (_ / ?hb)) * ?pb <= _ =>
                 pose proof (positive_total_power H_total hb pb n Hpos)
                   as Hp;
                 assert (0 < inject_Z n
                             * inject_Z (Qceiling (H_total / hb)) * pb)
                   by (apply Hp; [reflexivity|reflexivity|reflexivity]);
                 lra
             end|]).
    contradiction.
Qed.

Lemma selected_arrangement_at_design_flow_witness :
  exists best,
    Master.mejor Master.sort_stable 800 2400 = Ok best
    /\ Master.N_par best = 2%Z
    /\ Master.N_est best = (-21)%Z
    /\ Master.P_total_kW best == -457800
    /\ Master.H_total_disp_m best == 2310
    /\ Master.H_total_disp_m best < 2400.
Proof.
  apply (selected_arrangement_at_design_flow Master.sort_stable 2400);
    [exact sort_stable_sorts|reflexivity|reflexivity].
Defined.

(** ** final.py: the running total of the losses *)

Lemma suma_app (l : list Q) (x : Q) : suma (l ++ [x]) == suma l + x.
Proof.
  unfold suma. rewrite fold_left_app. reflexivity.
Qed.

Lemma calcular_tramos_snoc (fr v : Q) (segs : list (string * Q * Q))
      (t : string * Q * Q) :
  Final.calcular_tramos fr v (segs ++ [t])
  = Final.paso fr v (Final.calcular_tramos fr v segs) t.
Proof.
  unfold Final.calcular_tramos. now rewrite fold_left_app.
Qed.

(** What the loop keeps true from one segment to the next. *)
Lemma calcular_tramos_invariant (fr v : Q) (segs : list (string * Q * Q)) :
  let p := Final.calcular_tramos fr v segs in
  map (fun r => (Final.Tramo r, Final.L r, Final.dZ r)) (Final.rows p) = segs
  /\ length (Final.hf_cum p) = S (length segs)
  /\ (forall k x, nth_error (Final.hf_cum p) k = Some x ->
                  x == suma (firstn k (map Final.hf (Final.rows p))))
  /\ nth_error (Final.hf_cum p) (length segs) = Some (Final.acc_loss p).
Proof.
  induction segs as [|t segs IH] using rev_ind.
  - cbn. repeat split; try reflexivity.
    intros [|k] x Hx; cbn in Hx; [|destruct k; discriminate].
    injection Hx as <-. reflexivity.
  - rewrite calcular_tramos_snoc. cbn zeta in IH.
    set (p := Final.calcular_tramos fr v segs) in *.
    destruct IH as [Hrows [Hlen [Hpre Hacc]]].
    destruct t as [[ID Lt] dZt]. cbn zeta.
    cbn [Final.paso Final.rows Final.hf_cum Final.acc_loss].
    assert (Hn : length (Final.rows p) = length segs).
    { rewrite <- (length_map (fun r => (Final.Tramo r, Final.L r, Final.dZ r))).
      now rewrite Hrows. }
    split; [|split; [|split]].
    + rewrite map_app, Hrows. reflexivity.
    + rewrite !length_app, Hlen. cbn. lia.
    + intros k x Hx.
      destruct (Nat.lt_ge_cases k (length (Final.hf_cum p))) as [Hk | Hk].
      * rewrite nth_error_app1 in Hx by exact Hk.
        rewrite map_app, firstn_app.
        replace (k - length (map Final.hf (Final.rows p)))%nat with 0%nat
          by (rewrite length_map; lia).
        cbn [firstn]. rewrite app_nil_r. now apply Hpre.
      * rewrite nth_error_app2 in Hx by exact Hk.
        destruct (k - length (Final.hf_cum p))%nat as [|d] eqn:Ed;
          [|destruct d; discriminate Hx].
        cbn in Hx. injection Hx as <-.
        assert (Ek : k = S (length segs)) by lia. subst k.
        rewrite firstn_all2 by (rewrite length_map, length_app; cbn; lia).
        rewrite map_app. cbn [map Final.hf]. rewrite suma_app.
        rewrite (Hpre _ _ Hacc).
        rewrite firstn_all2 by (rewrite length_map; lia). reflexivity.
    + rewrite nth_error_app2 by (rewrite length_app; cbn; lia).
      rewrite length_app, Hlen. cbn [length].
      replace (length segs + 1 - S (length segs))%nat with 0%nat by lia.
      reflexivity.
Qed.

Lemma nth_error_last_opt (A : Type) (l : list A) (n : nat) (x : A) :
  length l = S n -> nth_error l n = Some x -> last_opt l = Some x.
Proof.
  revert n. induction l as [|a l IH]; intros n Hl Hn; [discriminate|].
  destruct l as [|b l].
  - cbn in Hl. assert (n = 0%nat) by lia. subst. exact Hn.
  - rewrite last_opt_cons. destruct n as [|n]; [cbn in Hl; lia|].
    apply (IH n); [cbn in *; lia|exact Hn].
Qed.

Lemma hf_cum_head (fr v : Q) (l : list (string * Q * Q)) :
  forall s,
    hd_error (Final.hf_cum s) = Some 0 ->
    hd_error (Final.hf_cum (fold_left (Final.paso fr v) l s)) = Some 0.
Proof.
  induction l as [|t l IH]; intros s Hs; [exact Hs|].
  cbn [fold_left]. apply IH. destruct t as [[i a] b].
  cbn [Final.paso Final.hf_cum].
  destruct (Final.hf_cum s); [discriminate|exact Hs].
Qed.

(** final.py: the loop over the segments makes one row per segment, in
    their order, and [hf_cum] holds the running totals of the losses:
    one entry more than there are segments, 0 first, entry [k] the sum of
    the first [k] losses, and last the accumulated loss, which is the
    [H_loss] summed afterwards from the rows. *)
Theorem hf_cum_holds_running_totals
        (fr v : Q) (segments : list (string * Q * Q)) :
  let p := Final.calcular_tramos fr v segments in
  map (fun r => (Final.Tramo r, Final.L r, Final.dZ r)) (Final.rows p)
  = segments
  /\ length (Final.hf_cum p) = S (length segments)
  /\ hd_error (Final.hf_cum p) = Some 0
  /\ (forall k x, nth_error (Final.hf_cum p) k = Some x ->
                  x == suma (firstn k (map Final.hf (Final.rows p))))
  /\ last_opt (Final.hf_cum p) = Some (Final.acc_loss p)
  /\ Final.acc_loss p == Final.H_loss p.
Proof.
  cbn zeta.
  destruct (calcular_tramos_invariant fr v segments)
    as [Hrows [Hlen [Hpre Hacc]]].
  set (p := Final.calcular_tramos fr v segments) in *.
  assert (Hn : length (Final.rows p) = length segments).
  { rewrite <- (length_map (fun r => (Final.Tramo r, Final.L r, Final.dZ r))).
    now rewrite Hrows. }
  repeat (split; [assumption|]).
  split; [|split; [exact Hpre|split]].
  - unfold p, Final.calcular_tramos. now apply hf_cum_head.
  - now apply (nth_error_last_opt _ _ (length segments)).
  - rewrite (Hpre _ _ Hacc). unfold Final.H_loss.
    rewrite firstn_all2 by (rewrite length_map; lia). reflexivity.
Qed.

(** ** final.py: the thickness rows *)

Lemma nth_error_combine (A B : Type) (l1 : list A) :
  forall (l2 : list B) (i : nat),
    nth_error (combine l1 l2) i =
    match nth_error l1 i, nth_error l2 i with
    | Some a, Some b => Some (a, b)
    | _, _ => None
    end.
Proof.
  induction l1 as [|a l1 IH]; intros l2 i.
  - cbn. now destruct i.
  - destruct l2 as [|b l2].
    + cbn. destruct i; cbn; [reflexivity|]. now destruct (nth_error l1 i).
    + destruct i; cbn; [reflexivity|apply IH].
Qed.

(** [l*3] read at index [i] is [l] read at [i] modulo its length. *)
Lemma nth_error_thrice (A : Type) (l : list A) (i : nat) :
  (i < 3 * length l)%nat ->
  nth_error (l ++ l ++ l) i = nth_error l (i mod length l).
Proof.
  intro Hi. set (n := length l) in *.
  assert (Hn : (0 < n)%nat) by lia.
  destruct (Nat.lt_ge_cases i n) as [H1 | H1].
  - rewrite nth_error_app1 by exact H1. now rewrite Nat.mod_small.
  - rewrite nth_error_app2 by exact H1. fold n.
    destruct (Nat.lt_ge_cases (i - n) n) as [H2 | H2].
    + rewrite nth_error_app1 by exact H2. f_equal.
      replace i with ((i - n) + 1 * n)%nat at 2 by lia.
      rewrite Nat.Div0.mod_add. now rewrite Nat.mod_small.
    + rewrite nth_error_app2 by exact H2. fold n. f_equal.
      replace i with ((i - n - n) + 2 * n)%nat at 2 by lia.
      rewrite Nat.Div0.mod_add. rewrite Nat.mod_small; lia.
Qed.

(** final.py, section 3: the thickness loop pairs the segments with the
    station list repeated three times.  It makes a row for each of the
    first [min(len(TRAMOS), 3 * len(estaciones))] segments, and the row of
    index [i] is designed for the head of the station of index [i] modulo
    the number of stations, whatever segments that station lists.  With
    the tables of the script the segment 3-4, listed under the first
    station (930 m), gets the head of the second (840 m). *)
Theorem thickness_rows_cycle_through_stations
        (segments : list (string * Q * Q))
        (stations : list (string * list string * Q * Z)) :
  length (Final.tramos_est segments stations)
  = Nat.min (length segments) (3 * length stations)
  /\ (forall i row,
         nth_error (Final.tramos_est segments stations) i = Some row ->
         exists ID L dZ e ids H N,
           nth_error segments i = Some (ID, L, dZ)
           /\ nth_error stations (i mod length stations) = Some (e, ids, H, N)
           /\ Final.Tramo_esp row = ID
           /\ Final.Head_diseno row = H
           /\ Final.t_req_mm row
              == (Final.rho * Final.g * H * Final.D)
                 / (2 * Final.sigma_allow) * 1000)
  /\ (exists row e N,
         nth_error (Final.tramos_est Final.TRAMOS Final.estaciones) 1
         = Some row
         /\ Final.Tramo_esp row = "3-4"%string
         /\ Final.Head_diseno row = 840
         /\ hd_error Final.estaciones
            = Some (e, ["2-3"; "3-4"]%string, 930, N)).
Proof.
  unfold Final.tramos_est. split; [|split].
  - rewrite length_map, length_combine, !length_app. f_equal. lia.
  - intros i row Hrow. rewrite nth_error_map, nth_error_combine in Hrow.
    destruct (nth_error segments i) as [[[ID L] dZ]|] eqn:Es;
      [|discriminate].
    destruct (nth_error (stations ++ stations ++ stations) i)
      as [[[[e ids] H] N]|] eqn:Et; [|discriminate].
    cbn in Hrow. injection Hrow as <-.
    exists ID, L, dZ, e, ids, H, N. split; [reflexivity|]. split.
    + rewrite <- Et. symmetry. apply nth_error_thrice.
      assert (Hi : (i < length (stations ++ stations ++ stations))%nat)
        by (apply nth_error_Some; congruence).
      rewrite !length_app in Hi. lia.
    + cbn. repeat split; reflexivity.
  - do 3 eexists. repeat split; reflexivity.
Qed.

(** ** Pumps per station in final.py and veremos.py *)

Lemma interpolate_within (xy : list point) (first last : point) (lo hi q : Q) :
  increasing_flows xy = true ->
  hd_error xy = Some first -> last_opt xy = Some last ->
  Forall (fun p => lo <= snd p /\ snd p <= hi) xy ->
  exists v, Veremos.interpolate xy q = Ok v /\ lo <= v /\ v <= hi.
Proof.
  intros Hinc Hhd Hlast Hall.
  destruct (interpolate_edges xy first last q Hinc Hhd Hlast)
    as [v [Hv [_ [_ [a [b [Ha [Hb [Hav Hvb]]]]]]]]].
  rewrite Forall_forall in Hall.
  destruct (Hall a Ha) as [La _]. destruct (Hall b Hb) as [_ Ub].
  exists v. split; [exact Hv|]. split; lra.
Qed.

Lemma np_interp_within (pts : list point) (lo hi q : Q) :
  increasing_flows pts = true -> pts <> [] ->
  Forall (fun p => lo <= snd p /\ snd p <= hi) pts ->
  exists v, np_interp q pts = Ok v /\ lo <= v /\ v <= hi.
Proof.
  intros Hinc Hne Hall. destruct pts as [|a0 rest]; [contradiction|].
  destruct (last_opt_some _ a0 rest) as [z Hz].
  destruct (np_interp_clamped a0 z rest q Hinc Hz)
    as [v [Hv [_ [_ [a [b [Ha [Hb [Hav Hvb]]]]]]]]].
  rewrite Forall_forall in Hall.
  destruct (Hall a Ha) as [La _]. destruct (Hall b Hb) as [_ Ub].
  exists v. split; [exact Hv|]. split; lra.
Qed.

(** veremos.py: [calcular_head_bomba] fails exactly when the number of
    pumps is zero, with ZeroDivisionError.  Otherwise, whatever the flow,
    the head it returns is between 620 and 970 m, the efficiency between 33
    and 85 and the power between 1200 and 3400 kW, the extreme values of
    the digitised curves. *)
Theorem calcular_head_bomba_stays_on_the_curves (Q_Ls : Q) (Npar : Z) :
  (Npar = 0%Z ->
   Veremos.calcular_head_bomba_3 Q_Ls Npar = Raise ZeroDivisionError)
  /\ (Npar <> 0%Z ->
      exists H eta Pw,
        Veremos.calcular_head_bomba_3 Q_Ls Npar = Ok (H, eta, Pw)
        /\ Veremos.calcular_head_bomba Q_Ls Npar = Ok H
        /\ 620 <= H <= 970 /\ 33 <= eta <= 85 /\ 1200 <= Pw <= 3400).
Proof.
  unfold Veremos.calcular_head_bomba_3, Veremos.calcular_head_bomba, pydiv.
  split.
  - intros ->. reflexivity.
  - intro Hn.
    assert (E : Qeq_bool (inject_Z Npar) 0 = false).
    { destruct (Qeq_bool (inject_Z Npar) 0) eqn:E; [|reflexivity].
      apply Qeq_bool_eq in E. exfalso. apply Hn.
      unfold Qeq in E. cbn in E. lia. }
    rewrite E. cbn [bind].
    set (q := Q_Ls / inject_Z Npar).
    destruct (interpolate_within Veremos.head_points (40, 970) (280, 620)
                620 970 q) as [H [EH [H1 H2]]]; try reflexivity.
    { repeat constructor; cbn; lra. }
    destruct (interpolate_within Veremos.eff_points (40, 33) (280, 79)
                33 85 q) as [eta [Ee [e1 e2]]]; try reflexivity.
    { repeat constructor; cbn; lra. }
    destruct (interpolate_within Veremos.power_points (40, 1200) (280, 3400)
                1200 3400 q) as [Pw [Ep [p1 p2]]]; try reflexivity.
    { repeat constructor; cbn; lra. }
    exists H, eta, Pw. rewrite EH, Ee, Ep. cbn [bind].
    repeat split; assumption.
Qed.

Lemma mapM_ok (A B : Type) (k : A -> result B) (R : A -> B -> Prop)
      (l : list A) :
  (forall a, In a l -> exists b, k a = Ok b /\ R a b) ->
  exists bs, mapM k l = Ok bs /\ Forall2 R l bs.
Proof.
  induction l as [|a l IH]; intro H.
  - exists []. split; [reflexivity|constructor].
  - destruct (H a (or_introl eq_refl)) as [b [Eb Rb]].
    destruct IH as [bs [Ebs Hall]]; [intros x Hx; apply H; now right|].
    exists (b :: bs). cbn [mapM]. rewrite Eb. cbn [bind]. rewrite Ebs.
    split; [reflexivity|now constructor].
Qed.

Lemma mapM_raises (A B : Type) (k : A -> result B) (e : exn) (l : list A) :
  (forall a, In a l -> (exists b, k a = Ok b) \/ k a = Raise e) ->
  Exists (fun a => k a = Raise e) l ->
  mapM k l = Raise e.
Proof.
  induction l as [|a l IH]; intros H Hex; [inversion Hex|].
  cbn [mapM].
  destruct (H a (or_introl eq_refl)) as [[b Eb] | Ea].
  - rewrite Eb. cbn [bind]. rewrite IH; [reflexivity| |].
    + intros x Hx. apply H. now right.
    + inversion Hex as [x l' Hx | x l' Hx]; subst; [congruence|exact Hx].
  - now rewrite Ea.
Qed.

(** The row of one station in [df_est], for the models of the script. *)
Lemma df_est_row (flow : Q) (e : string) (ids : list string) (H : Q) (N : Z) :
  let row :=
    qb <- pydiv (flow * 1000) (inject_Z N) ;;
    pw <- np_interp qb Final.power_pts ;;
    ef <- np_interp qb Final.eff_pts ;;
    Ok (Final.mk_fila_est e H N qb pw ef) in
  (N = 0%Z -> row = Raise ZeroDivisionError)
  /\ (N <> 0%Z ->
      exists pw ef,
        row = Ok (Final.mk_fila_est e H N (flow * 1000 / inject_Z N) pw ef)
        /\ 1200 <= pw <= 3400 /\ 33 <= ef <= 85).
Proof.
  cbn zeta. unfold pydiv. split.
  - intros ->. reflexivity.
  - intro Hn.
    assert (E : Qeq_bool (inject_Z N) 0 = false).
    { destruct (Qeq_bool (inject_Z N) 0) eqn:E; [|reflexivity].
      apply Qeq_bool_eq in E. exfalso. apply Hn.
      unfold Qeq in E. cbn in E. lia. }
    rewrite E. cbn [bind]. set (q := flow * 1000 / inject_Z N).
    destruct (np_interp_within Final.power_pts 1200 3400 q)
      as [pw [Ep [p1 p2]]]; [reflexivity|discriminate| |].
    { repeat constructor; cbn; lra. }
    destruct (np_interp_within Final.eff_pts 33 85 q)
      as [ef [Ee [e1 e2]]]; [reflexivity|discriminate| |].
    { repeat constructor; cbn; lra. }
    exists pw, ef. rewrite Ep, Ee. cbn [bind]. repeat split; assumption.
Qed.

(** final.py, section 2: [df_est] has one row per station, with the power
    between 1200 and 3400 kW and the efficiency between 33 and 85 whatever
    the flow, as long as every station has a number of pumps other than
    zero; a station with zero pumps stops it with ZeroDivisionError. *)
Theorem df_est_stays_on_the_curves
        (flow : Q) (stations : list (string * list string * Q * Z)) :
  (Forall (fun s => snd s <> 0%Z) stations ->
   exists rows,
     Final.df_est flow stations = Ok rows
     /\ Forall2 (fun s r =>
                   Final.Estacion r = fst (fst (fst s))
                   /\ Final.Head_m r = snd (fst s)
                   /\ Final.Bombas r = snd s
                   /\ Final.Q_bomba_Ls r = flow * 1000 / inject_Z (snd s)
                   /\ 1200 <= Final.Power_kW r <= 3400
                   /\ 33 <= Final.Eficiencia r <= 85)
                stations rows)
  /\ (Exists (fun s => snd s = 0%Z) stations ->
      Final.df_est flow stations = Raise ZeroDivisionError).
Proof.
  unfold Final.df_est.
  change (Final.build_interp Final.head_pts)
    with (Ok (Final.mk_interp (fun q => np_interp q Final.head_pts) 40 280)).
  change (Final.build_interp Final.eff_pts)
    with (Ok (Final.mk_interp (fun q => np_interp q Final.eff_pts) 40 280)).
  change (Final.build_interp Final.power_pts)
    with (Ok (Final.mk_interp (fun q => np_interp q Final.power_pts) 40 280)).
  cbn [bind Final.estimate]. split.
  - intro Hall. rewrite Forall_forall in Hall.
    apply mapM_ok. intros [[[e ids] H] N] Hin.
    destruct (df_est_row flow e ids H N) as [_ Hok].
    destruct (Hok (Hall _ Hin)) as [pw [ef [E [Hp He]]]].
    eexists. split; [exact E|]. cbn. repeat split; tauto.
  - intro Hex. apply mapM_raises; [|].
    + intros [[[e ids] H] N] _.
      destruct (df_est_row flow e ids H N) as [H0 Hok].
      destruct (Z.eq_dec N 0) as [-> | Hn].
      * right. now apply H0.
      * left. destruct (Hok Hn) as [pw [ef [E _]]]. eexists. exact E.
    + apply Exists_exists in Hex. apply Exists_exists.
      destruct Hex as [[[[e ids] H] N] [Hin Hz]]. cbn in Hz. subst N.
      eexists. split; [exact Hin|].
      destruct (df_est_row flow e ids H 0) as [H0 _]. now apply H0.
Qed.

(** ** estanques.py: the adopted thickness *)

Lemma pydiv_nonzero (x y : Q) : ~ y == 0 -> pydiv x y = Ok (x / y).
Proof.
  intro H. unfold pydiv. destruct (Qeq_bool y 0) eqn:E; [|reflexivity].
  apply Qeq_bool_eq in E. contradiction.
Qed.

Lemma pydiv_zero (x y : Q) : y == 0 -> pydiv x y = Raise ZeroDivisionError.
Proof.
  intro H. unfold pydiv. now rewrite (Qeq_eq_bool _ _ H).
Qed.

Ltac nonzero_constant :=
  let E := fresh in intro E; vm_compute in E; discriminate E.


(** ** veremos.py: the thickness rows *)

Lemma adopted_by_group (grupo : string) :
  (In grupo ["Est.1"; "Est.2"; "Est.3"]%string ->
   exists e,
     lookup [("Est.1", 32); ("Est.2", 50); ("Est.3", 70)]%string grupo = Some e
     /\ In e [32; 50; 70])
  /\ (~ In grupo ["Est.1"; "Est.2"; "Est.3"]%string ->
      lookup [("Est.1", 32); ("Est.2", 50); ("Est.3", 70)]%string grupo = None).
Proof.
  cbn [lookup In].
  destruct (String.eqb grupo "Est.1") eqn:E1;
    [|destruct (String.eqb grupo "Est.2") eqn:E2;
      [|destruct (String.eqb grupo "Est.3") eqn:E3]].
  - split; [intros _; exists 32; cbn; tauto|].
    apply String.eqb_eq in E1. intro H. exfalso. apply H. left. now symmetry.
  - split; [intros _; exists 50; cbn; tauto|].
    apply String.eqb_eq in E2. intro H. exfalso. apply H. right. left.
    now symmetry.
  - split; [intros _; exists 70; cbn; tauto|].
    apply String.eqb_eq in E3. intro H. exfalso. apply H. right. right. left.
    now symmetry.
  - apply String.eqb_neq in E1, E2, E3. split; [|reflexivity].
    intros [H | [H | [H | []]]]; congruence.
Qed.

(** veremos.py: a thickness row fails only on its group.  A group without
    entry in [H_estaciones] raises KeyError; a group with a head but which
    is not one of Est.1, Est.2, Est.3 raises ValueError; otherwise the row
    is computed, no division is by zero, the adopted thickness is 32, 50 or
    70 mm and the required thickness is proportional to the head of the
    group. *)
Theorem fila_fails_only_on_its_group
        (H_est : list (string * Q)) (tr : Veremos.tramo) :
  (lookup H_est (Veremos.grupo tr) = None ->
   Veremos.fila H_est tr = Raise KeyError)
  /\ (forall H,
         lookup H_est (Veremos.grupo tr) = Some H ->
         ~ In (Veremos.grupo tr) ["Est.1"; "Est.2"; "Est.3"]%string ->
         Veremos.fila H_est tr = Raise ValueError)
  /\ (forall H,
         lookup H_est (Veremos.grupo tr) = Some H ->
         In (Veremos.grupo tr) ["Est.1"; "Est.2"; "Est.3"]%string ->
         exists r,
           Veremos.fila H_est tr = Ok r
           /\ Veremos.Tramo r = Veremos.id tr
           /\ In (Veremos.e_adopt_mm r) [32; 50; 70]
           /\ Veremos.e_req_mm r
              == Veremos.rho * Veremos.g * Veremos.D
                 / (2 * Veremos.sigma_allow) * 1000 * H).
Proof.
  unfold Veremos.fila.
  destruct (adopted_by_group (Veremos.grupo tr)) as [Hin Hout].
  split; [|split].
  - intros ->. reflexivity.
  - intros H -> Hno. cbn [bind].
    rewrite pydiv_nonzero by nonzero_constant. cbn [bind].
    now rewrite (Hout Hno).
  - intros H -> Hyes. cbn [bind].
    rewrite pydiv_nonzero by nonzero_constant. cbn [bind].
    destruct (Hin Hyes) as [e [Ee He]]. rewrite Ee. cbn [bind].
    rewrite (pydiv_nonzero e 1000) by nonzero_constant. cbn [bind].
    assert (Hnz : ~ e == 0).
    { cbn in He. destruct He as [<- | [<- | [<- | []]]]; nonzero_constant. }
    assert (Hnz2 : ~ 2 * (e / 1000) == 0).
    { intro E. apply Hnz.
      assert (E' : e == (2 * (e / 1000)) * 500) by field.
      rewrite E', E. reflexivity. }
    rewrite (pydiv_nonzero _ _ Hnz2). cbn [bind].
    rewrite (pydiv_nonzero _ 1e6) by nonzero_constant. cbn [bind].
    rewrite (pydiv_nonzero _ 1e5) by nonzero_constant. cbn [bind].
    rewrite (pydiv_nonzero _ _ Hnz). cbn [bind].
    eexists. split; [reflexivity|]. cbn.
    split; [reflexivity|]. split; [exact He|].
    field. nonzero_constant.
Qed.
